(** * ChineseDisplay: glyph fetch, cache, line composition and rendering

    A shallow embedding of the MicroPython client
    ([oled_display.py], [demo1/oled_display_size.py]) and of the Flask
    font service ([font_server_size.py]).

    Python values are modelled as follows.
    - [int] is [Z]; a character (one Unicode code point of a [str]) and a
      byte are [N]; a text is the list of its code points.
    - ASCII-only strings built by the program (URLs, the percent-encoded
      form) are [string].
    - the JSON payload of the font service is the inductive [json]; a
      Python exception is the [None] of an [option] (or a dedicated
      constructor where [None] is already a Python result).
    - the dictionary [chinese_font_cache] is a [gmap]. *)

From Stdlib Require Import ZArith NArith List String Ascii Bool Lia DecimalString.
From stdpp Require Import base option list gmap.
Import ListNotations.

Local Open Scope Z_scope.

(** ** Python runtime helpers *)

Module Py.

(** [range(start, stop, step)] for a positive [step]. *)
Definition range3 (start stop step : Z) : list Z :=
  map (fun i : nat => start + Z.of_nat i * step)
      (seq 0 (Z.to_nat ((stop - start + step - 1) / step))).

(** [range(n)]. *)
Definition range (n : Z) : list Z := range3 0 n 1.

(** Resolution of a list subscript: a negative index counts from the end,
    anything outside [-len, len) raises [IndexError]. *)
Definition index (len : nat) (i : Z) : option nat :=
  if (0 <=? i) && (i <? Z.of_nat len) then Some (Z.to_nat i)
  else if (- Z.of_nat len <=? i) && (i <? 0) then Some (Z.to_nat (Z.of_nat len + i))
  else None.

(** [l[i]] on a list. *)
Definition getitem {A} (l : list A) (i : Z) : option A :=
  match index (length l) i with
  | Some k => l !! k
  | None => None
  end.

(** [l[i] = v] on a list. *)
Definition setitem {A} (l : list A) (i : Z) (v : A) : option (list A) :=
  match index (length l) i with
  | Some k => Some (<[k := v]> l)
  | None => None
  end.

(** [str.isspace] on one code point (the characters [str.strip()] removes). *)
Definition isspace (c : N) : bool :=
  (((9 <=? c) && (c <=? 13)) || ((28 <=? c) && (c <=? 32))
   || (c =? 133) || (c =? 160) || (c =? 5760)
   || ((8192 <=? c) && (c <=? 8202))
   || (c =? 8232) || (c =? 8233) || (c =? 8239) || (c =? 8287)
   || (c =? 12288))%N.

Fixpoint lstrip (t : list N) : list N :=
  match t with
  | c :: t' => if isspace c then lstrip t' else t
  | [] => []
  end.

(** [text.strip()]. *)
Definition strip (t : list N) : list N := rev (lstrip (rev (lstrip t))).

End Py.

(** ** Percent-encoding of the request text *)

Module UrlEncode.

Local Open Scope N_scope.

(** [char.encode('utf-8')] for one code point. *)
Definition utf8_encode (c : N) : list N :=
  if c <? 128 then [c]
  else if c <? 2048 then [192 + c / 64; 128 + c mod 64]
  else if c <? 65536 then [224 + c / 4096; 128 + (c / 64) mod 64; 128 + c mod 64]
  else [240 + c / 262144; 128 + (c / 4096) mod 64; 128 + (c / 64) mod 64; 128 + c mod 64].

(** A Unicode scalar value: a code point that is not a surrogate. *)
Definition scalar (c : N) : Prop := c < 55296 \/ (57343 < c /\ c < 1114112).

Definition hex_upper (d : N) : ascii :=
  if d <? 10 then ascii_of_N (48 + d) else ascii_of_N (55 + d).

(** Digits of [n] in base 16, most significant first, at least one digit. *)
Fixpoint hex_digits (fuel : nat) (n : N) (acc : string) : string :=
  match fuel with
  | O => acc
  | S fuel' =>
      let acc' := String (hex_upper (n mod 16)) acc in
      if n <? 16 then acc' else hex_digits fuel' (n / 16) acc'
  end.

Fixpoint zero_pad (k : nat) (s : string) : string :=
  match k with
  | O => s
  | S k' => String "0" (zero_pad k' s)
  end.

(** The format specification [02X]: upper-case hexadecimal, padded with
    zeros on the left to a minimum width of two. *)
Definition format_02X (n : N) : string :=
  let d := hex_digits (S (N.to_nat (N.log2 n))) n EmptyString in
  zero_pad (2 - String.length d) d.

Definition safe_chars : string :=
  "abcdefghijklmnopqrstuvwxyzABCDEFGHIJKLMNOPQRSTUVWXYZ0123456789-_.~".

(** [char in s] for a one-character [char]. *)
Definition char_in (c : N) (s : string) : bool :=
  existsb (fun a => N_of_ascii a =? c) (list_ascii_of_string s).

(** [_urlencode_chinese] ([oled_display.py] 92-105, the same in
    [demo1/oled_display_size.py] 95-107): the accumulator [encoded_result]
    is threaded through both loops. *)
Definition _urlencode_chinese (text : list N) : string :=
  fold_left
    (fun encoded_result char =>
       if char_in char safe_chars
       then String.append encoded_result (String (ascii_of_N char) EmptyString)
       else
         fold_left
           (fun encoded_result byte =>
              String.append encoded_result (String "%" (format_02X byte)))
           (utf8_encode char) encoded_result)
    text EmptyString.

(** *** The encoding as the specification words it *)

(** The unreserved set: [A-Z a-z 0-9 - _ . ~]. *)
Definition unreserved (c : N) : bool :=
  ((65 <=? c) && (c <=? 90)) || ((97 <=? c) && (c <=? 122))
  || ((48 <=? c) && (c <=? 57))
  || (c =? 45) || (c =? 95) || (c =? 46) || (c =? 126).

(** [%XX] with two upper-case hexadecimal digits. *)
Definition percent_byte (b : N) : string :=
  String "%" (String (hex_upper (b / 16)) (String (hex_upper (b mod 16)) EmptyString)).

(** Concatenation of a list of strings. *)
Definition join (l : list string) : string :=
  fold_right String.append EmptyString l.

Definition encode_char (c : N) : string :=
  if unreserved c then String (ascii_of_N c) EmptyString
  else join (map percent_byte (utf8_encode c)).

Definition encode_spec (text : list N) : string :=
  join (map encode_char text).

Definition hex_value (a : ascii) : option N :=
  let n := N_of_ascii a in
  if (48 <=? n) && (n <=? 57) then Some (n - 48)
  else if (65 <=? n) && (n <=? 70) then Some (n - 55)
  else if (97 <=? n) && (n <=? 102) then Some (n - 87)
  else None.

(** Standard percent-decoding of a query-string component to bytes: [%XY]
    with two hexadecimal digits is one byte, any other character stands
    for itself. *)
Fixpoint percent_decode (s : string) : list N :=
  match s with
  | EmptyString => []
  | String c rest =>
      match c, rest with
      | "%"%char, String h (String l rest') =>
          match hex_value h, hex_value l with
          | Some a, Some b => (16 * a + b) :: percent_decode rest'
          | _, _ => N_of_ascii c :: percent_decode rest
          end
      | _, _ => N_of_ascii c :: percent_decode rest
      end
  end.

(** The UTF-8 byte sequence of a text. *)
Definition utf8_bytes (text : list N) : list N := flat_map utf8_encode text.

(** A character that may stand in a query string as it is: the percent
    sign of an escape, or an unreserved character. *)
Definition url_safe (a : ascii) : bool :=
  (N_of_ascii a =? 37) || unreserved (N_of_ascii a).

End UrlEncode.

(** ** JSON payloads as Python sees them *)

Module Json.

(** A decoded JSON value.  An object is the association list of its
    members, looked up by the first match.  Numbers are the integers the
    font service emits. *)
#[warnings="-register-all"]
Inductive json : Type :=
  | JNull
  | JBool (b : bool)
  | JNum (n : Z)
  | JStr (s : string)
  | JArr (items : list json)
  | JObj (members : list (string * json)).

(** Truth value of a value used as a condition. *)
Definition truthy (v : json) : bool :=
  match v with
  | JNull => false
  | JBool b => b
  | JNum n => negb (n =? 0)
  | JStr s => negb (String.eqb s EmptyString)
  | JArr items => match items with [] => false | _ => true end
  | JObj members => match members with [] => false | _ => true end
  end.

Fixpoint assoc (k : string) (members : list (string * json)) : option json :=
  match members with
  | [] => None
  | (k', v) :: rest => if String.eqb k k' then Some v else assoc k rest
  end.

(** [d.get(k, default)]: only a dict has the method. *)
Definition get_default (d : json) (k : string) (default : json) : option json :=
  match d with
  | JObj members => Some (match assoc k members with Some v => v | None => default end)
  | _ => None
  end.

(** [d[k]] with a string key: [KeyError] when absent, [TypeError] on
    anything that is not a dict. *)
Definition getkey (d : json) (k : string) : option json :=
  match d with
  | JObj members => assoc k members
  | _ => None
  end.

(** [v[i]] with an integer index. *)
Definition subscript (v : json) (i : Z) : option json :=
  match v with
  | JArr items => Py.getitem items i
  | JStr s =>
      match Py.index (String.length s) i with
      | Some k => Some (JStr (String.substring k 1 s))
      | None => None
      end
  | _ => None
  end.

(** A value used as an integer in arithmetic, a comparison or [range];
    [bool] is a subclass of [int]. *)
Definition as_int (v : json) : option Z :=
  match v with
  | JNum n => Some n
  | JBool b => Some (if b then 1 else 0)
  | _ => None
  end.

Definition int_field (d : json) (k : string) : option Z :=
  getkey d k ≫= as_int.

(** [bitmap[y][x]] of a reply, as a condition. *)
Definition lit (bitmap : json) (y x : Z) : option bool :=
  row ← subscript bitmap y;
  v ← subscript row x;
  Some (truthy v).

(** *** Glyphs, as the specification describes a reply *)

Definition width_of (d : json) : Z := default 0 (int_field d "width").
Definition height_of (d : json) : Z := default 0 (int_field d "height").

(** [width] and [height] are present and are integers. *)
Definition has_dims (d : json) : bool :=
  match int_field d "width", int_field d "height" with
  | Some _, Some _ => true
  | _, _ => false
  end.

(** [bitmap], [width] and [height] are present and consistent: [bitmap]
    has [height] rows and every row has [width] entries. *)
Definition consistent (d : json) : bool :=
  match getkey d "bitmap", int_field d "width", int_field d "height" with
  | Some (JArr rows), Some w, Some h =>
      (Z.of_nat (length rows) =? h)
      && forallb (fun row =>
                    match row with
                    | JArr cells => Z.of_nat (length cells) =? w
                    | _ => false
                    end) rows
  | _, _, _ => false
  end.

(** A consistent glyph whose width is not negative (the rows force this
    as soon as there is one). *)
Definition well_formed (d : json) : bool :=
  consistent d && (0 <=? width_of d).

(** A set pixel of a glyph. *)
Definition glyph_lit (d : json) (y x : Z) : option bool :=
  char_bitmap ← getkey d "bitmap";
  lit char_bitmap y x.

(** Sum of a list of integers, and maximum of a non-empty one. *)
Fixpoint zsum (l : list Z) : Z :=
  match l with
  | [] => 0
  | x :: l' => x + zsum l'
  end.

Definition max_from (m : Z) (l : list Z) : Z := fold_left Z.max l m.

Definition max_of (l : list Z) : Z :=
  match l with
  | [] => 0
  | h :: t => max_from h t
  end.

End Json.

(** Loops whose body may raise: the state is threaded through the
    iterations and the first exception ends the loop. *)
Fixpoint for_each {A S : Type} (l : list A) (body : A -> S -> option S) (s : S)
  : option S :=
  match l with
  | [] => Some s
  | a :: l' =>
      match body a s with
      | Some s' => for_each l' body s'
      | None => None
      end
  end.

(** ** The display driver as the renderers use it *)

Module Oled.

(** One call into the SSD1306 driver, or a pause. *)
Inductive event : Type :=
  | Fill (c : Z)          (* oled.fill(c) *)
  | Pixel (x y c : Z)     (* oled.pixel(x, y, c) *)
  | Show                  (* oled.show() *)
  | Sleep.                (* time.sleep(speed) *)

Section Frames.

(** The display size, the bitmap size, and [bitmap[y][x]] as a condition
    ([None] when the subscript raises). *)
Variables (self_width self_height : Z).
Variables (width height : Z) (lit : Z -> Z -> option bool).

Definition y_offset : Z := (self_height - height) / 2.

(** Body of the scrolling loop for one [offset]. *)
Definition scroll_frame (offset : Z) (trace : list event) : option (list event) :=
  trace ← for_each (Py.range height)
    (fun y trace =>
       for_each (Py.range width)
         (fun x trace =>
            b ← lit y x;
            if b : bool then
              let px := self_width - offset + x in
              let py := y_offset + y in
              if (0 <=? px) && (px <? self_width)
              then Some (trace ++ [Pixel px py 1])
              else Some trace
            else Some trace)
         trace)
    (trace ++ [Fill 0]);
  Some (trace ++ [Show; Sleep]).

(** The static, centred drawing. *)
Definition static_frame (trace : list event) : option (list event) :=
  let x_offset := (self_width - width) / 2 in
  trace ← for_each (Py.range height)
    (fun y trace =>
       for_each (Py.range width)
         (fun x trace =>
            b ← lit y x;
            if b : bool then Some (trace ++ [Pixel (x_offset + x) (y_offset + y) 1])
            else Some trace)
         trace)
    (trace ++ [Fill 0]);
  Some (trace ++ [Show]).

(** The pixels one scrolling frame is specified to draw, over any
    bitmap reader. *)
Definition scroll_pixels (offset : Z) : list event :=
  flat_map
    (fun y =>
       flat_map
         (fun x =>
            match lit y x with
            | Some true =>
                let px := self_width - offset + x in
                if (0 <=? px) && (px <? self_width)
                then [Pixel px ((self_height - height) / 2 + y) 1]
                else []
            | _ => []
            end)
         (Py.range width))
    (Py.range height).

(** The pixels the static drawing is specified to draw. *)
Definition static_pixels : list event :=
  flat_map
    (fun y =>
       flat_map
         (fun x =>
            match lit y x with
            | Some true =>
                [Pixel ((self_width - width) / 2 + x)
                       ((self_height - height) / 2 + y) 1]
            | _ => []
            end)
         (Py.range width))
    (Py.range height).

End Frames.

(** Number of pauses, and of flushes, in a trace. *)
Definition sleeps (trace : list event) : nat :=
  length (List.filter (fun e => match e with Sleep => true | _ => false end) trace).

Definition shows (trace : list event) : nat :=
  length (List.filter (fun e => match e with Show => true | _ => false end) trace).

End Oled.

(** ** The client with per-character cache ([demo1/oled_display_size.py]) *)

Module Client.
Import Json.

(** Outcome of [urequests.get] followed by [response.json()]. *)
Inductive http_result : Type :=
  | NetError                                   (* get raised: timeout, transport *)
  | Response (status_code : Z) (body : option json). (* body None: not JSON *)

(** The mutable part of an [OledChineseDisplay]: the glyph cache, and the
    URLs requested so far (most recent first). *)
Record state : Type := mkState {
  chinese_font_cache : gmap (N * Z) json;
  requests : list string
}.

Definition init : state := mkState ∅ [].

(** The composite returned by [_fetch_font_bitmap]. *)
Record composite : Type := mkComposite {
  bitmap : list (list Z);
  width : Z;
  height : Z;
  success : bool
}.

(** What a call of [_fetch_font_bitmap] ends with. *)
Inductive result : Type :=
  | RNone                      (* return None *)
  | RBitmap (b : composite)    (* return full_bitmap_data *)
  | RRaise.                    (* an exception propagates *)

(** State of the first loop of [_fetch_font_bitmap]. *)
Inductive collected : Type :=
  | GaveUp
  | Raised
  | Collected (all_char_bitmaps : list json) (max_height total_width : Z).

Section WithNetwork.

(** The network: what the service answers to a URL, given the requests
    made before. *)
Variable net : list string -> string -> http_result.
Variable font_api_url : string.
Variable default_font_size : Z.

Definition str_of_int (n : Z) : string :=
  DecimalString.NilZero.string_of_int (Z.to_int n).

Definition request_url (char : N) (font_size : Z) : string :=
  String.append font_api_url
    (String.append "text="
       (String.append (UrlEncode._urlencode_chinese [char])
          (String.append "&font_size=" (str_of_int font_size)))).

(** [_fetch_single_char_bitmap] ([demo1/oled_display_size.py] 110-133).
    Every path of the [try] block other than the accepted reply ends in
    [return None]. *)
Definition _fetch_single_char_bitmap (char : N) (font_size : Z) (s : state)
  : option json * state :=
  let cache_key := (char, font_size) in
  match chinese_font_cache s !! cache_key with
  | Some data => (Some data, s)
  | None =>
      let url := request_url char font_size in
      let s' := mkState (chinese_font_cache s) (url :: requests s) in
      match net (requests s) url with
      | NetError => (None, s')
      | Response status_code body =>
          if status_code =? 200 then
            match body with
            | None => (None, s')
            | Some data =>
                match get_default data "success" (JBool false) with
                | None => (None, s')
                | Some ok =>
                    if truthy ok
                    then (Some data,
                          mkState (<[cache_key := data]> (chinese_font_cache s))
                                  (url :: requests s))
                    else (None, s')
                end
            end
          else (None, s')
      end
  end.

(** First loop of [_fetch_font_bitmap] ([demo1/oled_display_size.py]
    152-162). *)
Fixpoint collect (text : list N) (font_size : Z)
    (all_char_bitmaps : list json) (max_height total_width : Z) (s : state)
  : collected * state :=
  match text with
  | [] => (Collected all_char_bitmaps max_height total_width, s)
  | char :: rest =>
      let '(char_data, s1) := _fetch_single_char_bitmap char font_size s in
      match char_data with
      | None => (GaveUp, s1)
      | Some d =>
          if truthy d then
            match getkey d "success" with
            | None => (Raised, s1)
            | Some ok =>
                if truthy ok then
                  match int_field d "width", int_field d "height" with
                  | Some w, Some h =>
                      collect rest font_size (all_char_bitmaps ++ [d])
                        (if h >? max_height then h else max_height)
                        (total_width + w) s1
                  | _, _ => (Raised, s1)
                  end
                else (GaveUp, s1)
            end
          else (GaveUp, s1)
      end
  end.

(** *** The run of the lookups, as the specification describes it *)

(** The lookups of the characters of a text in order, up to the first
    that fails. *)
Fixpoint fetch_all (text : list N) (font_size : Z) (s : state)
  : option (list json) * state :=
  match text with
  | [] => (Some [], s)
  | char :: rest =>
      match _fetch_single_char_bitmap char font_size s with
      | (None, s1) => (None, s1)
      | (Some d, s1) =>
          match fetch_all rest font_size s1 with
          | (Some ds, s2) => (Some (d :: ds), s2)
          | (None, s2) => (None, s2)
          end
      end
  end.

(** States reached from [s] by further lookups. *)
Inductive later (s : state) : state -> Prop :=
  | later_now : later s s
  | later_lookup char font_size s1 :
      later s s1 ->
      later s (_fetch_single_char_bitmap char font_size s1).2.

End WithNetwork.

(** The test a reply passes before it is cached. *)
Definition accepted (d : json) : bool :=
  match get_default d "success" (JBool false) with
  | Some ok => truthy ok
  | None => false
  end.

(** Every cached reply passed the test: true of [init], kept by every
    lookup. *)
Definition cache_ok (s : state) : Prop :=
  forall key d, chinese_font_cache s !! key = Some d -> accepted d = true.

(** A service whose accepted replies are well-formed glyphs, and a cache
    filled from such a service. *)
Definition serves_well_formed (net : list string -> string -> http_result) : Prop :=
  forall history url d,
    net history url = Response 200 (Some d) ->
    accepted d = true -> well_formed d = true.

Definition cache_well_formed (s : state) : Prop :=
  forall key d,
    chinese_font_cache s !! key = Some d ->
    accepted d = true /\ well_formed d = true.

(** [full_bitmap[r][c] = 1]. *)
Definition put (full_bitmap : list (list Z)) (r c : Z) : option (list (list Z)) :=
  row ← Py.getitem full_bitmap r;
  row' ← Py.setitem row c 1;
  Py.setitem full_bitmap r row'.

Section Blit.

(** The blit is written over the store operation, so that the same loops
    can be run on the grid ([put]) and on a record of the targets. *)
Context {G : Type} (store : G -> Z -> Z -> option G).

(** Body of the second loop of [_fetch_font_bitmap], lines 173-184. *)
Definition blit_char (max_height current_x : Z) (char_data : json) (g : G)
  : option G :=
  char_bitmap ← getkey char_data "bitmap";
  char_width ← int_field char_data "width";
  char_height ← int_field char_data "height";
  let y_offset_for_char := max_height - char_height in
  for_each (Py.range char_height)
    (fun y g =>
       for_each (Py.range char_width)
         (fun x g =>
            row ← subscript char_bitmap y;
            px ← subscript row x;
            if truthy px then store g (y_offset_for_char + y) (current_x + x)
            else Some g)
         g)
    g.

(** Second loop of [_fetch_font_bitmap], lines 171-185. *)
Fixpoint blit_all (max_height current_x : Z) (all_char_bitmaps : list json) (g : G)
  : option G :=
  match all_char_bitmaps with
  | [] => Some g
  | char_data :: rest =>
      g' ← blit_char max_height current_x char_data g;
      char_width ← int_field char_data "width";
      blit_all max_height (current_x + char_width) rest g'
  end.

End Blit.

(** The targets [(row, column)] of the stores of a blit, in order. *)
Definition record_target (log : list (Z * Z)) (r c : Z) : option (list (Z * Z)) :=
  Some (log ++ [(r, c)]).

Definition blit_targets (max_height : Z) (all_char_bitmaps : list json)
  : option (list (Z * Z)) :=
  blit_all record_target max_height 0 all_char_bitmaps [].

Definition blank (max_height total_width : Z) : list (list Z) :=
  replicate (Z.to_nat max_height) (replicate (Z.to_nat total_width) 0).

(** [full_bitmap[r][c]]. *)
Definition pixel_at (full_bitmap : list (list Z)) (r c : Z) : option Z :=
  row ← Py.getitem full_bitmap r;
  Py.getitem row c.

(** The grid only gains set pixels. *)
Definition grows (g g' : list (list Z)) : Prop :=
  forall r c, pixel_at g r c = Some 1 -> pixel_at g' r c = Some 1.

(** A grid of [h] rows of [w] entries. *)
Definition grid_dims (g : list (list Z)) (h w : Z) : Prop :=
  Z.of_nat (length g) = h /\ Forall (fun row => Z.of_nat (length row) = w) g.

(** The horizontal cursor when the [i]-th glyph is drawn. *)
Definition cursor (all_char_bitmaps : list json) (i : nat) : Z :=
  zsum (map width_of (take i all_char_bitmaps)).

(** The cache keys a text needs at a font size. *)
Definition keys_of (text : list N) (font_size : Z) : gset (N * Z) :=
  list_to_set (map (fun char => (char, font_size)) text).

(** Position [(r, c)] of the composite is the image of a set pixel of one
    of the glyphs. *)
Definition lands (all_char_bitmaps : list json) (max_height r c : Z) : Prop :=
  exists i d y x,
    all_char_bitmaps !! i = Some d
    /\ 0 <= y < height_of d /\ 0 <= x < width_of d
    /\ glyph_lit d y x = Some true
    /\ r = max_height - height_of d + y
    /\ c = cursor all_char_bitmaps i + x.

Section Compose.

Variable net : list string -> string -> http_result.
Variable font_api_url : string.
Variable default_font_size : Z.

(** [font_size if font_size is not None else self.default_font_size]. *)
Definition actual_font_size (font_size : option Z) : Z :=
  match font_size with Some f => f | None => default_font_size end.

(** [_fetch_font_bitmap] ([demo1/oled_display_size.py] 136-191). *)
Definition _fetch_font_bitmap (text : list N) (font_size : option Z) (s : state)
  : result * state :=
  match collect net font_api_url text (actual_font_size font_size) [] 0 0 s with
  | (GaveUp, s') => (RNone, s')
  | (Raised, s') => (RRaise, s')
  | (Collected all_char_bitmaps max_height total_width, s') =>
      match all_char_bitmaps with
      | [] => (RNone, s')
      | _ =>
          match blit_all put max_height 0 all_char_bitmaps
                  (blank max_height total_width) with
          | Some full_bitmap =>
              (RBitmap (mkComposite full_bitmap total_width max_height true), s')
          | None => (RRaise, s')
          end
      end
  end.

End Compose.

(** [bitmap[y][x]] of a composite, as a condition. *)
Definition pixel_lit (bitmap_data : composite) (y x : Z) : option bool :=
  row ← Py.getitem (bitmap bitmap_data) y;
  v ← Py.getitem row x;
  Some (negb (v =? 0)).

(** Offsets of the scrolling loop: [range(0, total_scroll_width + scroll_step, scroll_step)]. *)
Definition scroll_offsets (self_width : Z) (bitmap_data : composite) : list Z :=
  let total_scroll_width := self_width + width bitmap_data in
  let scroll_step := 2 in
  Py.range3 0 (total_scroll_width + scroll_step) scroll_step.

(** The pixels one scrolling frame is specified to draw: for every set
    pixel [(x, y)] of the composite, in row-major order, the screen pixel
    [(self_width - offset + x, y_offset + y)] when its column is on the
    display. *)
Definition frame_pixels (self_width self_height : Z) (bitmap_data : composite)
    (offset : Z) : list Oled.event :=
  flat_map
    (fun y =>
       flat_map
         (fun x =>
            match pixel_lit bitmap_data y x with
            | Some true =>
                let px := self_width - offset + x in
                if (0 <=? px) && (px <? self_width)
                then [Oled.Pixel px
                        ((self_height - height bitmap_data) / 2 + y) 1]
                else []
            | _ => []
            end)
         (Py.range (width bitmap_data)))
    (Py.range (height bitmap_data)).

(** [_render_bitmap] ([demo1/oled_display_size.py] 194-225): the driver
    calls it makes, [None] when it raises. *)
Definition _render_bitmap (self_width self_height : Z) (scroll_mode : bool)
    (bitmap_data : composite) : option (list Oled.event) :=
  let frame :=
    Oled.scroll_frame self_width self_height
      (width bitmap_data) (height bitmap_data) (pixel_lit bitmap_data) in
  if scroll_mode then
    for_each (scroll_offsets self_width bitmap_data) frame []
  else
    Oled.static_frame self_width self_height
      (width bitmap_data) (height bitmap_data) (pixel_lit bitmap_data) [].

End Client.

(** ** The client without cache ([oled_display.py]) *)

Module ClientV1.
Import Json.

(** Offsets of the scrolling loop: [range(total_scroll_width)]. *)
Definition scroll_offsets (self_width width : Z) : list Z :=
  let total_scroll_width := self_width + width in
  Py.range total_scroll_width.

(** [_render_bitmap] ([oled_display.py] 130-159) on the reply
    [bitmap_data] of the service. *)
Definition _render_bitmap (self_width self_height : Z) (scroll_mode : bool)
    (bitmap_data : json) : option (list Oled.event) :=
  bitmap ← getkey bitmap_data "bitmap";
  width ← int_field bitmap_data "width";
  height ← int_field bitmap_data "height";
  if scroll_mode then
    for_each (scroll_offsets self_width width)
      (Oled.scroll_frame self_width self_height width height (lit bitmap)) []
  else
    Oled.static_frame self_width self_height width height (lit bitmap) [].

(** [_fetch_font_bitmap] ([oled_display.py] 107-128): one request for the
    whole text, nothing cached.  The state is the list of the URLs
    requested so far. *)
Definition _fetch_font_bitmap (net : list string -> string -> Client.http_result)
    (font_api_url : string) (text : list N) (requests : list string)
  : option json * list string :=
  let encoded_text := UrlEncode._urlencode_chinese text in
  let url := String.append font_api_url encoded_text in
  match net requests url with
  | Client.NetError => (None, url :: requests)
  | Client.Response status_code body =>
      if status_code =? 200 then
        match body with
        | None => (None, url :: requests)
        | Some data =>
            match get_default data "success" (JBool false) with
            | None => (None, url :: requests)
            | Some ok =>
                if truthy ok then (Some data, url :: requests)
                else (None, url :: requests)
            end
        end
      else (None, url :: requests)
  end.

End ClientV1.

(** ** The display sequence ([demo1/oled_display_size.py]) *)

Module Display.
Import Json Client.

(** What reaches the display or the clock: a driver call of a renderer,
    [oled.text(s, x, y)], or [time.sleep(seconds)] with a number of
    seconds.  Console output is not modelled. *)
Inductive event : Type :=
  | Driver (e : Oled.event)
  | Text (s : list N) (x y : Z)
  | Pause (seconds : Z).

(** The code points of an ASCII literal. *)
Definition codes (s : string) : list N := map N_of_ascii (list_ascii_of_string s).

(** [clear] (lines 293-296). *)
Definition clear : list event := [Driver (Oled.Fill 0); Driver Oled.Show].

(** [show_message] (lines 274-291). *)
Definition show_message (line1 line2 : list N) (font_size clear_after : Z)
  : list event :=
  let char_height := 8 * font_size in
  [Driver (Oled.Fill 0); Text line1 0 0]
  ++ (match line2 with [] => [] | _ => [Text line2 0 (char_height + 2)] end)
  ++ [Driver Oled.Show]
  ++ (if clear_after >? 0 then Pause clear_after :: clear else []).

(** The argument [texts] of [display]: one string, or a list of strings. *)
Inductive texts_arg : Type :=
  | Str (text : list N)
  | Strs (texts : list (list N)).

Section WithDevice.

Variable net : list string -> string -> http_result.
Variable font_api_url : string.
Variable default_font_size : Z.
Variables (self_width self_height : Z) (scroll_mode : bool).

(** The loop of [display] (lines 242-256); the trace is [None] when an
    exception propagates out of it. *)
Fixpoint display_loop (texts : list (list N)) (delay_between_texts : Z)
    (font_size : option Z) (s : state) (trace : list event)
  : option (list event) * state :=
  match texts with
  | [] => (Some trace, s)
  | text :: rest =>
      let trace := trace ++ show_message (codes "Fetching Font...") text 1 0 in
      match _fetch_font_bitmap net font_api_url default_font_size text font_size s with
      | (RBitmap font_data, s') =>
          match _render_bitmap self_width self_height scroll_mode font_data with
          | Some drawn =>
              display_loop rest delay_between_texts font_size s'
                (trace ++ map Driver drawn ++ [Pause delay_between_texts])
          | None => (None, s')
          end
      | (RNone, s') =>
          display_loop rest delay_between_texts font_size s'
            (trace
             ++ show_message (codes "Font Error!") (codes "Check API server") 1 2
             ++ [Pause delay_between_texts])
      | (RRaise, s') => (None, s')
      end
  end.

(** [display] (lines 228-257). *)
Definition display (texts : texts_arg) (delay_between_texts : Z)
    (font_size : option Z) (s : state) : option (list event) * state :=
  let texts := match texts with Str text => [text] | Strs texts => texts end in
  display_loop texts delay_between_texts font_size s [].

End WithDevice.

(** What [display] is specified to put out for one text: the notice, then
    the drawing or the error message, then the pause. *)
Definition segment_of (text : list N) (delay : Z) (seg : list event) : Prop :=
  exists body,
    seg = show_message (codes "Fetching Font...") text 1 0 ++ body ++ [Pause delay]
    /\ (body = show_message (codes "Font Error!") (codes "Check API server") 1 2
        \/ exists drawn, body = map Driver drawn).

End Display.

(** ** The font service ([font_server_size.py]) *)

Module FontServer.

(** What [text_to_bitmap] returns: the dictionary with [success] true, or
    the one with [success] false. *)
Inductive reply : Type :=
  | Ok (bitmap : list (list Z)) (width height : Z)
  | Error.

Section WithPillow.

(** Pillow: loading the font and measuring the text ([None] when either
    raises), and the pixel of the image drawn from the text. *)
Variable textbbox : list N -> Z -> option (Z * Z * Z * Z).
Variable getpixel : list N -> Z -> Z -> Z -> bool.

(** [text_to_bitmap] ([font_server_size.py] 10-59). *)
Definition text_to_bitmap (text : list N) (font_size : Z) : reply :=
  match textbbox text font_size with
  | None => Error
  | Some (bbox0, bbox1, bbox2, bbox3) =>
      let width := bbox2 - bbox0 in
      let height := bbox3 - bbox1 in
      let len := Z.of_nat (length text) in
      let '(width, height) :=
        match Py.strip text with
        | [] =>
            let estimated_space_width := font_size / 3 in
            (if (width =? 0) && (len >? 0) then estimated_space_width * len
             else if (width =? 0) && (len =? 0) then 1
             else width,
             if height =? 0 then font_size else height)
        | _ => (width, height)
        end in
      (* Image.new refuses a negative size *)
      if (width <? 0) || (height <? 0) then Error
      else
        Ok (map (fun y =>
                   map (fun x => if getpixel text font_size x y then 1 else 0)
                       (Py.range width))
                (Py.range height))
           width height
  end.

(** The [font_size] argument of [/api/font]: absent, not an integer, or
    an integer. *)
Inductive size_arg : Type := Absent | NotAnInt | Int (n : Z).

Definition parse_font_size (a : size_arg) : Z :=
  match a with
  | Absent => 24
  | NotAnInt => 24
  | Int n => if (1 <=? n) && (n <=? 128) then n else 24
  end.

(** [get_font_bitmap] ([font_server_size.py] 61-93): the reply and the
    HTTP status. *)
Definition get_font_bitmap (text : option (list N)) (font_size : size_arg)
  : reply * Z :=
  let font_size := parse_font_size font_size in
  match text with
  | Some [] => (Error, 400)
  | None => (Error, 400)
  | Some text =>
      match text_to_bitmap text font_size with
      | Ok b w h => (Ok b w h, 200)
      | Error => (Error, 500)
      end
  end.

End WithPillow.

(** [jsonify] of a reply, as the client decodes it; [error] is the text
    of the exception. *)
Definition jsonify (error : string) (r : reply) : Json.json :=
  match r with
  | Ok bitmap width height =>
      Json.JObj
        [("bitmap"%string,
          Json.JArr (map (fun row => Json.JArr (map Json.JNum row)) bitmap));
         ("width"%string, Json.JNum width);
         ("height"%string, Json.JNum height);
         ("success"%string, Json.JBool true)]
  | Error =>
      Json.JObj [("error"%string, Json.JStr error);
                 ("success"%string, Json.JBool false)]
  end.

End FontServer.

(** ** Sample replies and networks *)

Module Samples.
Import Json Client.
Local Open Scope string_scope.

Definition row (cells : list Z) : json := JArr (map JNum cells).

Definition glyph (w h : Z) (rows : list (list Z)) : json :=
  JObj [("bitmap", JArr (map row rows)); ("width", JNum w);
        ("height", JNum h); ("success", JBool true)].

Definition api : string := "http://192.168.140.134:5000/api/font?".

(** A 2x1 glyph for [A] and a 1x2 glyph for U+4F60. *)
Definition glyph_A : json := glyph 2 1 [[1; 1]].
Definition glyph_ni : json := glyph 1 2 [[1]; [0]].

(** A service that knows the two glyphs at size 8. *)
Definition net_ok (history : list string) (url : string) : http_result :=
  if String.eqb url (String.append api "text=A&font_size=8")
  then Response 200 (Some glyph_A)
  else if String.eqb url (String.append api "text=%E4%BD%A0&font_size=8")
  then Response 200 (Some glyph_ni)
  else Response 500 None.

(** A service whose first answer is lost. *)
Definition net_flaky (history : list string) (url : string) : http_result :=
  match history with
  | [] => NetError
  | _ => net_ok history url
  end.

(** A reply that passes the test of the client although it declares 5x2
    and carries one row of one pixel. *)
Definition bad_reply : json :=
  JObj [("success", JBool true); ("width", JNum 5); ("height", JNum 2);
        ("bitmap", JArr [row [1]])].

Definition net_bad (history : list string) (url : string) : http_result :=
  Response 200 (Some bad_reply).

(** The composite of [A] followed by U+4F60. *)
Definition composite_A_ni : composite :=
  mkComposite [[0; 0; 1]; [1; 1; 0]] 3 2 true.

(** A reply of one set pixel. *)
Definition dot : json := glyph 1 1 [[1]].

(** Pillow measurements: a text without extent, and a text measured 12
    wide and 17 high (a tab drawn as the missing-glyph box). *)
Definition no_extent (text : list N) (font_size : Z) : option (Z * Z * Z * Z) :=
  Some (0, 0, 0, 0).

Definition boxed (text : list N) (font_size : Z) : option (Z * Z * Z * Z) :=
  Some (0, 0, 12, 17).

Definition no_ink (text : list N) (font_size x y : Z) : bool := false.

End Samples.

(** ** A network backed by the font service *)

Module Scenarios.
Import Json Client.

(** A service that measures every text as empty and draws no ink,
    answering every request with its reply to two spaces at size 24. *)
Definition space_service (history : list string) (url : string) : http_result :=
  Response 200
    (Some (FontServer.jsonify EmptyString
             (FontServer.get_font_bitmap Samples.no_extent Samples.no_ink
                (Some [32%N; 32%N]) (FontServer.Int 24)).1)).

End Scenarios.

(** * Properties *)

(** ** The percent-encoder *)

Module UrlEncodeProofs.
Import UrlEncode.
Local Open Scope N_scope.

Ltac nlia := zify; Z.to_euclidean_division_equations; lia.

(** A boolean property of all numbers below a bound, checked by running it. *)
Lemma below_cases (P : N -> bool) (bound : nat) :
  forallb P (map N.of_nat (seq 0 bound)) = true ->
  forall n, n < N.of_nat bound -> P n = true.
Proof.
  intros Hall n Hn.
  rewrite forallb_forall in Hall. apply Hall.
  apply in_map_iff. exists (N.to_nat n). split; [lia|].
  apply in_seq. lia.
Qed.

Lemma append_cons (a : ascii) (s t : string) :
  String.append (String a s) t = String a (String.append s t).
Proof. reflexivity. Qed.

Lemma append_empty_r (s : string) : String.append s EmptyString = s.
Proof.
  induction s as [|a s IH]; [reflexivity | now rewrite append_cons, IH].
Qed.

Lemma append_assoc (s t u : string) :
  String.append (String.append s t) u = String.append s (String.append t u).
Proof.
  induction s as [|a s IH]; [reflexivity | now rewrite !append_cons, IH].
Qed.

(** Membership in the literal [safe_chars] is membership in the
    unreserved ranges. *)
Lemma char_in_safe_unreserved c : char_in c safe_chars = unreserved c.
Proof.
  destruct (N.ltb_spec c 128) as [Hlt|Hge].
  - apply Bool.eqb_prop.
    apply (below_cases (fun c => Bool.eqb (char_in c safe_chars) (unreserved c)) 128);
      [vm_compute; reflexivity | exact Hlt].
  - transitivity false.
    + apply not_true_is_false. intros Hin.
      apply existsb_exists in Hin as (a & Ha & Heq).
      apply N.eqb_eq in Heq. subst c.
      assert (Hascii : forallb (fun a => N_of_ascii a <? 128)
                         (list_ascii_of_string safe_chars) = true)
        by (vm_compute; reflexivity).
      rewrite forallb_forall in Hascii. apply Hascii in Ha.
      apply N.ltb_lt in Ha. lia.
    + symmetry. unfold unreserved.
      repeat match goal with
             | |- (_ || _)%bool = false => apply orb_false_intro
             | |- (_ && _)%bool = false => apply andb_false_iff; right
             | |- (_ <=? _) = false => apply N.leb_gt; lia
             | |- (_ =? _) = false => apply N.eqb_neq; lia
             end.
Qed.

Lemma unreserved_ascii c : unreserved c = true -> c < 128 /\ c <> 37.
Proof.
  unfold unreserved. intros H.
  repeat match type of H with
         | (_ || _)%bool = true => apply orb_prop in H as [H|H]
         end;
    try (apply andb_prop in H as [H1 H2]; apply N.leb_le in H1, H2; lia);
    apply N.eqb_eq in H; lia.
Qed.

(** On a byte, [02X] gives exactly two digits. *)
Lemma format_02X_byte b :
  b < 256 -> String "%" (format_02X b) = percent_byte b.
Proof.
  intros Hb. apply String.eqb_eq.
  apply (below_cases
           (fun b => String.eqb (String "%" (format_02X b)) (percent_byte b)) 256);
    [vm_compute; reflexivity | exact Hb].
Qed.

Lemma utf8_encode_bytes c : scalar c -> Forall (fun b => b < 256) (utf8_encode c).
Proof.
  unfold scalar, utf8_encode. intros Hc.
  repeat match goal with
         | |- context [?a <? ?b] => destruct (N.ltb_spec a b)
         end;
    repeat constructor; nlia.
Qed.

Lemma fold_bytes (bs : list N) (acc : string) :
  Forall (fun b => b < 256) bs ->
  fold_left (fun acc b => String.append acc (String "%" (format_02X b))) bs acc
  = String.append acc (join (map percent_byte bs)).
Proof.
  intros Hbs. revert acc.
  induction Hbs as [|b bs Hb _ IH]; intros acc; cbn [fold_left map join fold_right].
  - symmetry. apply append_empty_r.
  - rewrite IH, append_assoc, <- (format_02X_byte b Hb). reflexivity.
Qed.

(** The two loops compute the character-wise encoding. *)
Lemma urlencode_acc (text : list N) (acc : string) :
  Forall scalar text ->
  fold_left
    (fun encoded_result char =>
       if char_in char safe_chars
       then String.append encoded_result (String (ascii_of_N char) EmptyString)
       else
         fold_left
           (fun encoded_result byte =>
              String.append encoded_result (String "%" (format_02X byte)))
           (utf8_encode char) encoded_result)
    text acc
  = String.append acc (encode_spec text).
Proof.
  intros Htext. revert acc.
  induction Htext as [|c text Hc _ IH]; intros acc; cbn [fold_left].
  - symmetry. apply append_empty_r.
  - rewrite IH. unfold encode_spec. cbn [map join fold_right].
    rewrite <- append_assoc. f_equal.
    unfold encode_char. rewrite char_in_safe_unreserved.
    destruct (unreserved c); [reflexivity|].
    apply fold_bytes, utf8_encode_bytes, Hc.
Qed.

Lemma hex_value_upper d : d < 16 -> hex_value (hex_upper d) = Some d.
Proof.
  intros Hd.
  pose proof (below_cases
    (fun d => match hex_value (hex_upper d) with
              | Some d' => d' =? d
              | None => false
              end) 16 eq_refl d Hd) as H.
  simpl in H. destruct (hex_value (hex_upper d)); [|discriminate].
  apply N.eqb_eq in H. now subst.
Qed.

Lemma percent_decode_byte b s :
  b < 256 ->
  percent_decode (String.append (percent_byte b) s) = b :: percent_decode s.
Proof.
  intros Hb. unfold percent_byte.
  rewrite !append_cons. change (String.append EmptyString s) with s.
  cbn [percent_decode].
  rewrite !hex_value_upper by nlia.
  f_equal. nlia.
Qed.

Lemma percent_decode_plain a s :
  a <> "%"%char ->
  percent_decode (String a s) = N_of_ascii a :: percent_decode s.
Proof.
  intros Ha.
  destruct a as [[] [] [] [] [] [] [] []]; try reflexivity.
  now contradiction Ha.
Qed.

Lemma percent_decode_bytes bs s :
  Forall (fun b => b < 256) bs ->
  percent_decode (String.append (join (map percent_byte bs)) s)
  = bs ++ percent_decode s.
Proof.
  induction 1 as [|b bs Hb _ IH]; cbn [map join fold_right]; [reflexivity|].
  rewrite append_assoc, percent_decode_byte by exact Hb.
  cbn [app]. f_equal. exact IH.
Qed.

Lemma percent_decode_char c s :
  scalar c ->
  percent_decode (String.append (encode_char c) s)
  = utf8_encode c ++ percent_decode s.
Proof.
  intros Hc. unfold encode_char.
  destruct (unreserved c) eqn:Hu.
  - apply unreserved_ascii in Hu as [Hlt Hne].
    rewrite append_cons. change (String.append EmptyString s) with s.
    rewrite percent_decode_plain.
    + rewrite N_ascii_embedding by lia.
      unfold utf8_encode.
      destruct (N.ltb_spec c 128); [reflexivity | lia].
    + intros Heq. apply (f_equal N_of_ascii) in Heq.
      rewrite N_ascii_embedding in Heq by lia. simpl in Heq. lia.
  - apply percent_decode_bytes, utf8_encode_bytes, Hc.
Qed.

Lemma percent_decode_spec text :
  Forall scalar text -> percent_decode (encode_spec text) = utf8_bytes text.
Proof.
  induction 1 as [|c text Hc _ IH]; [reflexivity|].
  unfold encode_spec, utf8_bytes. cbn [map join fold_right flat_map].
  rewrite percent_decode_char by exact Hc.
  f_equal. exact IH.
Qed.

(** C5. On a text of Unicode scalar values, [_urlencode_chinese] copies the
    unreserved characters [A-Z a-z 0-9 - _ . ~] and writes every other
    character as the [%XX] (upper-case) of each byte of its UTF-8
    encoding; percent-decoding the result gives back the UTF-8 bytes of
    the text. *)
Theorem urlencode_chinese_roundtrip (text : list N) :
  Forall scalar text ->
  _urlencode_chinese text = encode_spec text
  /\ percent_decode (_urlencode_chinese text) = utf8_bytes text.
Proof.
  intros Htext.
  assert (Henc : _urlencode_chinese text = encode_spec text).
  { unfold _urlencode_chinese. now rewrite urlencode_acc. }
  split; [exact Henc|].
  rewrite Henc. now apply percent_decode_spec.
Qed.

Lemma urlencode_chinese_roundtrip_witness :
  let text := [20320; 22909; 32; 97; 126; 37; 128512] in
  Forall scalar text
  /\ _urlencode_chinese text = encode_spec text
  /\ percent_decode (_urlencode_chinese text) = utf8_bytes text.
Proof.
  intros text.
  assert (H : Forall scalar text) by (repeat constructor; unfold scalar; lia).
  split; [exact H|].
  exact (urlencode_chinese_roundtrip text H).
Defined.

End UrlEncodeProofs.

(** ** Loops and subscripts *)

Module LoopProofs.

Lemma in_range3 (start stop step i : Z) :
  0 < step ->
  In i (Py.range3 start stop step) <->
  start <= i < stop /\ exists k, 0 <= k /\ i = start + k * step.
Proof.
  intros Hstep. unfold Py.range3. rewrite in_map_iff. split.
  - intros (k & <- & Hk). apply in_seq in Hk.
    assert (Hlt : Z.of_nat k < (stop - start + step - 1) / step) by lia.
    assert (Hmul : step * Z.of_nat k < stop - start).
    { assert (Hle : step * (Z.of_nat k + 1) <= stop - start + step - 1).
      { etransitivity; [|apply (Z.mul_div_le _ step); lia].
        apply Z.mul_le_mono_nonneg_l; lia. }
      lia. }
    split; [nia|]. exists (Z.of_nat k). split; lia.
  - intros ([H1 H2] & k & Hk & ->). exists (Z.to_nat k).
    split; [lia|]. apply in_seq. split; [lia|].
    assert (k < (stop - start + step - 1) / step); [|lia].
    apply Z.lt_le_trans with ((k * step + step) / step).
    + rewrite <- (Z.mul_1_l step) at 2.
      rewrite <- Z.mul_add_distr_r, Z.div_mul by lia. lia.
    + apply Z.div_le_mono; lia.
Qed.

Lemma in_range (n i : Z) : In i (Py.range n) <-> 0 <= i < n.
Proof.
  unfold Py.range. rewrite in_range3 by lia. split.
  - tauto.
  - intros H. split; [exact H|]. exists i. lia.
Qed.

Lemma index_in_range (len : nat) (i : Z) :
  0 <= i < Z.of_nat len -> Py.index len i = Some (Z.to_nat i).
Proof.
  intros H. unfold Py.index.
  destruct (Z.leb_spec 0 i), (Z.ltb_spec i (Z.of_nat len)); simpl; lia || reflexivity.
Qed.

Lemma index_lt (len : nat) (i : Z) (k : nat) :
  Py.index len i = Some k -> (k < len)%nat.
Proof.
  unfold Py.index.
  destruct (Z.leb_spec 0 i), (Z.ltb_spec i (Z.of_nat len)); simpl;
    try (intros [= <-]; lia);
    destruct (Z.leb_spec (- Z.of_nat len) i), (Z.ltb_spec i 0); simpl;
    intros [= <-]; lia.
Qed.

Lemma getitem_in_range {A} (l : list A) (i : Z) :
  0 <= i < Z.of_nat (length l) -> Py.getitem l i = l !! Z.to_nat i.
Proof. intros H. unfold Py.getitem. now rewrite index_in_range. Qed.

Section ForEach.
Context {A S : Type}.

(** A loop whose body never raises under an invariant does not raise. *)
Lemma for_each_total (Inv : S -> Prop) (l : list A) (body : A -> S -> option S) s :
  Inv s ->
  (forall a s, In a l -> Inv s -> exists s', body a s = Some s' /\ Inv s') ->
  exists s', for_each l body s = Some s' /\ Inv s'.
Proof.
  revert s. induction l as [|a l IH]; intros s Hs Hbody; simpl.
  - eauto.
  - destruct (Hbody a s (or_introl eq_refl) Hs) as (s1 & -> & Hs1).
    apply IH; [exact Hs1|]. intros a' s' Ha'. apply Hbody. now right.
Qed.

(** A completed loop ran its body on every element, and the state only
    moved along [R]. *)
Lemma for_each_steps (R : S -> S -> Prop) (l : list A) (body : A -> S -> option S) s s' :
  (forall s, R s s) ->
  (forall s1 s2 s3, R s1 s2 -> R s2 s3 -> R s1 s3) ->
  (forall a s1 s2, In a l -> body a s1 = Some s2 -> R s1 s2) ->
  for_each l body s = Some s' ->
  R s s' /\
  forall a, In a l -> exists s1 s2, R s s1 /\ body a s1 = Some s2 /\ R s2 s'.
Proof.
  intros Hrefl Htrans. revert s.
  induction l as [|a l IH]; intros s Hbody Hrun; simpl in Hrun.
  - injection Hrun as <-. split; [apply Hrefl|]. intros a [].
  - destruct (body a s) as [s1|] eqn:Hs1; [|discriminate].
    assert (R s s1) as Hstep by (eapply Hbody; [now left | exact Hs1]).
    destruct (IH s1) as [Hrest Hall]; [|exact Hrun|].
    { intros a' t1 t2 Ha'. apply Hbody. now right. }
    split; [eapply Htrans; eassumption|].
    intros a' [<-|Ha'].
    + exists s, s1. auto.
    + destruct (Hall a' Ha') as (t1 & t2 & H1 & H2 & H3).
      exists t1, t2. split; [eapply Htrans; eassumption|]. auto.
Qed.

End ForEach.

End LoopProofs.

(** ** The glyph cache *)

Module CacheProofs.
Import Json Client.

Section WithNetwork.

Variable net : list string -> string -> http_result.
Variable font_api_url : string.

Abbreviation fetch := (_fetch_single_char_bitmap net font_api_url).
Abbreviation url_of := (request_url font_api_url).

(** A hit returns the stored reply and leaves the state alone. *)
Lemma fetch_hit char font_size s d :
  chinese_font_cache s !! (char, font_size) = Some d ->
  fetch char font_size s = (Some d, s).
Proof. intros H. unfold _fetch_single_char_bitmap. now rewrite H. Qed.

(** A miss issues one request and caches the reply iff it is accepted. *)
Lemma fetch_miss char font_size s :
  chinese_font_cache s !! (char, font_size) = None ->
  fetch char font_size s =
    let url := url_of char font_size in
    match net (requests s) url with
    | Response 200 (Some data) =>
        if accepted data
        then (Some data,
              mkState (<[(char, font_size) := data]> (chinese_font_cache s))
                      (url :: requests s))
        else (None, mkState (chinese_font_cache s) (url :: requests s))
    | _ => (None, mkState (chinese_font_cache s) (url :: requests s))
    end.
Proof.
  intros H. unfold _fetch_single_char_bitmap, accepted. rewrite H. cbn zeta.
  destruct (net (requests s) (url_of char font_size)) as [|status body];
    [reflexivity|].
  destruct (Z.eqb_spec status 200) as [->|Hne].
  - destruct body as [data|]; [|reflexivity].
    destruct (get_default data "success" (JBool false)) as [ok|]; [|reflexivity].
    destruct (truthy ok); reflexivity.
  - destruct status as [|[]|]; try reflexivity; try (now contradiction Hne).
    all: repeat match goal with
                | |- context [match ?p with _ => _ end] => destruct p
                end; reflexivity || now contradiction Hne.
Qed.

Lemma fetch_some_cached char font_size s d s1 :
  fetch char font_size s = (Some d, s1) ->
  chinese_font_cache s1 !! (char, font_size) = Some d.
Proof.
  destruct (chinese_font_cache s !! (char, font_size)) as [d0|] eqn:Hc.
  - rewrite (fetch_hit _ _ _ _ Hc). now intros [= <- <-].
  - rewrite (fetch_miss _ _ _ Hc). cbn zeta.
    repeat match goal with
           | |- context [match ?p with _ => _ end] => destruct p
           end; try discriminate.
    intros [= <- <-]. cbn. apply lookup_insert_eq.
Qed.

Lemma fetch_none_cache char font_size s s1 :
  fetch char font_size s = (None, s1) ->
  chinese_font_cache s1 = chinese_font_cache s
  /\ chinese_font_cache s1 !! (char, font_size) = None
  /\ requests s1 = url_of char font_size :: requests s.
Proof.
  destruct (chinese_font_cache s !! (char, font_size)) as [d0|] eqn:Hc.
  - rewrite (fetch_hit _ _ _ _ Hc). discriminate.
  - rewrite (fetch_miss _ _ _ Hc). cbn zeta.
    repeat match goal with
           | |- context [match ?p with _ => _ end] => destruct p
           end; try discriminate; intros [= <-]; cbn; auto.
Qed.

(** Entries are never evicted or overwritten. *)
Lemma fetch_keeps key d char font_size s :
  chinese_font_cache s !! key = Some d ->
  chinese_font_cache (fetch char font_size s).2 !! key = Some d.
Proof.
  intros Hkey.
  destruct (chinese_font_cache s !! (char, font_size)) as [d0|] eqn:Hc.
  - now rewrite (fetch_hit _ _ _ _ Hc).
  - rewrite (fetch_miss _ _ _ Hc). cbn zeta.
    repeat match goal with
           | |- context [match ?p with _ => _ end] => destruct p
           end; cbn; try exact Hkey.
    rewrite lookup_insert_ne; [exact Hkey|]. congruence.
Qed.

Lemma later_keeps key d s s2 :
  later net font_api_url s s2 ->
  chinese_font_cache s !! key = Some d ->
  chinese_font_cache s2 !! key = Some d.
Proof.
  induction 1 as [|char font_size s1 _ IH]; intros Hkey; [exact Hkey|].
  apply fetch_keeps, IH, Hkey.
Qed.

(** What a lookup returns has passed the test, and the cache stays good. *)
Lemma fetch_accepted char font_size s d s1 :
  cache_ok s ->
  fetch char font_size s = (Some d, s1) ->
  accepted d = true /\ cache_ok s1.
Proof.
  intros Hok.
  destruct (chinese_font_cache s !! (char, font_size)) as [d0|] eqn:Hc.
  - rewrite (fetch_hit _ _ _ _ Hc). intros [= <- <-]. split; [|exact Hok].
    eapply Hok, Hc.
  - rewrite (fetch_miss _ _ _ Hc). cbn zeta.
    destruct (net _ _) as [|status [data|]]; try discriminate;
      destruct status as [|[]|]; try discriminate;
      repeat match goal with
             | |- context [match ?p with _ => _ end] => destruct p eqn:?
             end; try discriminate.
    intros [= <- <-]. split; [assumption|].
    intros key d'. cbn. rewrite lookup_insert.
    case_decide; [now intros [= <-] | apply Hok].
Qed.

Lemma fetch_cache_ok char font_size s :
  cache_ok s -> cache_ok (fetch char font_size s).2.
Proof.
  intros Hok. destruct (fetch char font_size s) as [[d|] s1] eqn:Hf.
  - exact (proj2 (fetch_accepted _ _ _ _ _ Hok Hf)).
  - apply fetch_none_cache in Hf as (Heq & _). cbn.
    intros key d. rewrite Heq. apply Hok.
Qed.


(** C4. After a lookup of [(char, font_size)] has succeeded, the reply is
    in the cache, and every later lookup of the same key, whatever was
    looked up in between, returns the same reply and leaves the state,
    hence the list of requests, as it was.  A failed lookup caches
    nothing: it is asked again from the service, and succeeds if the
    service now answers with an accepted reply. *)
Theorem get_or_fetch_idempotent char font_size s :
  (forall g s1,
      fetch char font_size s = (Some g, s1) ->
      chinese_font_cache s1 !! (char, font_size) = Some g
      /\ forall s2, later net font_api_url s1 s2 ->
                    fetch char font_size s2 = (Some g, s2))
  /\ (forall s1,
        fetch char font_size s = (None, s1) ->
        chinese_font_cache s1 = chinese_font_cache s
        /\ chinese_font_cache s1 !! (char, font_size) = None
        /\ forall d,
             net (requests s1) (url_of char font_size) = Response 200 (Some d) ->
             accepted d = true ->
             (fetch char font_size s1).1 = Some d).
Proof.
  split.
  - intros g s1 Hf. apply fetch_some_cached in Hf. split; [exact Hf|].
    intros s2 Hlater. apply fetch_hit. eapply later_keeps; eassumption.
  - intros s1 Hf. apply fetch_none_cache in Hf as (Heq & Hnone & _).
    repeat split; [exact Heq | exact Hnone |].
    intros d Hnet Hacc. rewrite (fetch_miss _ _ _ Hnone). cbn zeta.
    now rewrite Hnet, Hacc.
Qed.

(** C6, as the code has it.  On a miss, the lookup returns a reply exactly
    when the response has status 200 and its body is a JSON object whose
    [success] member is truthy, and then it returns that body as it is;
    [bitmap], [width] and [height] are not examined. *)
Theorem fetch_glyph_accepts char font_size s d :
  chinese_font_cache s !! (char, font_size) = None ->
  (fetch char font_size s).1 = Some d <->
  net (requests s) (url_of char font_size) = Response 200 (Some d)
  /\ accepted d = true.
Proof.
  intros Hmiss. rewrite (fetch_miss _ _ _ Hmiss). cbn zeta. split.
  - destruct (net _ _) as [|status [data|]]; try discriminate;
      destruct status as [|[]|]; try discriminate;
      repeat match goal with
             | |- context [match ?p with _ => _ end] => destruct p eqn:?
             end; try discriminate.
    cbn. intros [= <-]. auto.
  - intros [-> ->]. reflexivity.
Qed.

End WithNetwork.

Lemma cache_ok_init : cache_ok init.
Proof. intros key d. cbn. now rewrite lookup_empty. Qed.

Lemma get_or_fetch_idempotent_witness :
  (let r := _fetch_single_char_bitmap Samples.net_ok Samples.api 65%N 8 init in
   r.1 = Some Samples.glyph_A
   /\ requests r.2 = [String.append Samples.api "text=A&font_size=8"]
   /\ _fetch_single_char_bitmap Samples.net_ok Samples.api 65%N 8 r.2
      = (Some Samples.glyph_A, r.2))
  /\ (let r := _fetch_single_char_bitmap Samples.net_flaky Samples.api 65%N 8 init in
      r.1 = None
      /\ chinese_font_cache r.2 = chinese_font_cache init
      /\ (_fetch_single_char_bitmap Samples.net_flaky Samples.api 65%N 8 r.2).1
         = Some Samples.glyph_A).
Proof.
  split.
  - pose proof (get_or_fetch_idempotent Samples.net_ok Samples.api 65%N 8 init) as [H _].
    specialize (H Samples.glyph_A _ eq_refl) as [_ H].
    split; [reflexivity|]. split; [reflexivity|]. apply H. constructor.
  - pose proof (get_or_fetch_idempotent Samples.net_flaky Samples.api 65%N 8 init) as [_ H].
    specialize (H _ eq_refl) as (H1 & _ & H2).
    split; [reflexivity|]. split; [exact H1|]. apply H2; reflexivity.
Defined.

Lemma fetch_glyph_accepts_witness :
  (_fetch_single_char_bitmap Samples.net_ok Samples.api 65%N 8 init).1
  = Some Samples.glyph_A.
Proof.
  apply (fetch_glyph_accepts Samples.net_ok Samples.api 65%N 8 init Samples.glyph_A).
  - reflexivity.
  - split; reflexivity.
Defined.

(** C6 fails as stated: a reply with status 200 and [success] true whose
    [width] and [height] contradict its [bitmap] is returned, and cached. *)
Lemma fetch_glyph_unvalidated :
  let r := _fetch_single_char_bitmap Samples.net_bad Samples.api 20320%N 24 init in
  r.1 = Some Samples.bad_reply
  /\ chinese_font_cache r.2 !! (20320%N, 24) = Some Samples.bad_reply
  /\ consistent Samples.bad_reply = false.
Proof. split; [|split]; vm_compute; reflexivity. Qed.

End CacheProofs.

(** ** Blitting the glyphs *)

Module BlitProofs.
Import Json Client LoopProofs.

Lemma accepted_inv d :
  accepted d = true ->
  truthy d = true /\ exists ok, getkey d "success" = Some ok /\ truthy ok = true.
Proof.
  unfold accepted, get_default, getkey.
  destruct d as [| | | | |members]; try discriminate.
  destruct (assoc "success" members) as [ok|] eqn:Hs; [|discriminate].
  intros Hok. split; [|eauto].
  destruct members; [discriminate | reflexivity].
Qed.

Lemma has_dims_inv d :
  has_dims d = true ->
  int_field d "width" = Some (width_of d)
  /\ int_field d "height" = Some (height_of d).
Proof.
  unfold has_dims, width_of, height_of.
  destruct (int_field d "width"), (int_field d "height"); try discriminate.
  auto.
Qed.

Lemma has_dims_intro d w h :
  int_field d "width" = Some w -> int_field d "height" = Some h ->
  has_dims d = true /\ width_of d = w /\ height_of d = h.
Proof.
  unfold has_dims, width_of, height_of. intros -> ->. auto.
Qed.

Lemma max_from_le m l : m <= max_from m l.
Proof.
  revert m. induction l as [|h l IH]; intros m; cbn; [lia|].
  etransitivity; [|apply IH]. lia.
Qed.

Lemma max_from_bound m l : Forall (fun h => h <= max_from m l) l.
Proof.
  revert m. induction l as [|h l IH]; intros m; constructor.
  - cbn. etransitivity; [|apply max_from_le]. lia.
  - apply IH.
Qed.

(** From zero, the running maximum of non-negative heights is their
    maximum. *)
Lemma max_from_zero h l : 0 <= h -> max_from 0 (h :: l) = max_of (h :: l).
Proof. intros H. cbn. now rewrite Z.max_r. Qed.

Lemma zsum_nonneg l : Forall (fun w => 0 <= w) l -> 0 <= zsum l.
Proof. induction 1; cbn; lia. Qed.

(** *** Reading a consistent glyph *)

Lemma consistent_inv d :
  consistent d = true ->
  exists rows,
    getkey d "bitmap" = Some (JArr rows)
    /\ has_dims d = true
    /\ Z.of_nat (length rows) = height_of d
    /\ Forall (fun row => exists cells,
                   row = JArr cells /\ Z.of_nat (length cells) = width_of d) rows.
Proof.
  unfold consistent, has_dims, width_of, height_of.
  destruct (getkey d "bitmap") as [[| | | |rows|]|]; try discriminate.
  destruct (int_field d "width") as [w|]; [|discriminate].
  destruct (int_field d "height") as [h|]; [|discriminate].
  intros H. apply andb_prop in H as [Hh Hrows].
  exists rows. cbn. repeat split; [lia|].
  rewrite forallb_forall in Hrows. apply List.Forall_forall.
  intros row Hin. specialize (Hrows row Hin).
  destruct row as [| | | |cells|]; try discriminate.
  exists cells. split; [reflexivity | lia].
Qed.

Lemma well_formed_inv d :
  well_formed d = true -> consistent d = true /\ 0 <= width_of d.
Proof. unfold well_formed. intros H. apply andb_prop in H as [H1 H2]. split; [exact H1 | lia]. Qed.

Lemma well_formed_height d : well_formed d = true -> 0 <= height_of d.
Proof.
  intros H. apply well_formed_inv in H as [H _].
  apply consistent_inv in H as (rows & _ & _ & <- & _). lia.
Qed.

Lemma consistent_read d y x :
  consistent d = true ->
  0 <= y < height_of d -> 0 <= x < width_of d ->
  exists char_bitmap row v,
    getkey d "bitmap" = Some char_bitmap
    /\ subscript char_bitmap y = Some row
    /\ subscript row x = Some v.
Proof.
  intros H Hy Hx. apply consistent_inv in H as (rows & Hbm & _ & Hlen & Hrows).
  destruct (lookup_lt_is_Some_2 rows (Z.to_nat y)) as [row Hrow]; [lia|].
  rewrite List.Forall_forall in Hrows.
  destruct (Hrows row) as (cells & -> & Hcells).
  { apply list_elem_of_In. eapply list_elem_of_lookup_2, Hrow. }
  destruct (lookup_lt_is_Some_2 cells (Z.to_nat x)) as [v Hv]; [lia|].
  exists (JArr rows), (JArr cells), v. repeat split; [exact Hbm | |].
  - cbn. now rewrite getitem_in_range by lia.
  - cbn. now rewrite getitem_in_range by lia.
Qed.

(** *** The blit never raises when its stores are in bounds *)

Section Total.

Context {G : Type} (store : G -> Z -> Z -> option G) (Inv : G -> Prop).
Variables max_height total_width : Z.

Hypothesis store_ok :
  forall g r c, Inv g -> 0 <= r < max_height -> 0 <= c < total_width ->
                exists g', store g r c = Some g' /\ Inv g'.

Lemma blit_char_total d current_x g :
  well_formed d = true ->
  height_of d <= max_height ->
  0 <= current_x -> current_x + width_of d <= total_width ->
  Inv g ->
  exists g', blit_char store max_height current_x d g = Some g' /\ Inv g'.
Proof.
  intros Hwf Hh Hx0 Hx1 Hg.
  apply well_formed_inv in Hwf as [Hcons Hw].
  destruct (consistent_inv d Hcons) as (rows & Hbm & Hdims & _).
  apply has_dims_inv in Hdims as [Hwd Hht].
  unfold blit_char. rewrite Hbm, Hwd, Hht. cbn [mbind option_bind].
  apply for_each_total; [exact Hg|]. intros y g0 Hy Hg0.
  apply for_each_total; [exact Hg0|]. intros x g1 Hx Hg1.
  apply in_range in Hy, Hx.
  destruct (consistent_read d y x Hcons Hy Hx) as (bm & row & v & Hbm' & Hrow & Hv).
  rewrite Hbm in Hbm'. injection Hbm' as <-.
  rewrite Hrow. cbn [mbind option_bind]. rewrite Hv. cbn [mbind option_bind].
  destruct (truthy v); [|eauto].
  apply store_ok; [exact Hg1 | lia | lia].
Qed.

Lemma blit_all_total ds current_x g :
  Forall (fun d => well_formed d = true) ds ->
  Forall (fun d => height_of d <= max_height) ds ->
  0 <= current_x -> current_x + zsum (map width_of ds) <= total_width ->
  Inv g ->
  exists g', blit_all store max_height current_x ds g = Some g' /\ Inv g'.
Proof.
  intros Hwf. revert current_x g.
  induction Hwf as [|d ds Hd Hds IH]; intros cx g Hh Hx0 Hx1 Hg; cbn [blit_all].
  - eauto.
  - inversion Hh as [|? ? Hhd Hhds]; subst.
    cbn [map zsum] in Hx1.
    assert (0 <= zsum (map width_of ds)) as Hrest.
    { apply zsum_nonneg. apply List.Forall_map.
      eapply List.Forall_impl; [|exact Hds].
      intros d' Hd'. now apply well_formed_inv in Hd'. }
    destruct (well_formed_inv d Hd) as [Hcons Hw].
    destruct (blit_char_total d cx g Hd Hhd Hx0 ltac:(lia) Hg) as (g1 & -> & Hg1).
    destruct (consistent_inv d Hcons) as (_ & _ & Hdims & _).
    apply has_dims_inv in Hdims as [-> _]. cbn [mbind option_bind].
    apply IH; [exact Hhds | lia | lia | exact Hg1].
Qed.

End Total.

(** *** Stores into the grid *)

Lemma put_inv g r c g' :
  put g r c = Some g' ->
  exists kr row kc,
    Py.index (length g) r = Some kr /\ g !! kr = Some row
    /\ Py.index (length row) c = Some kc
    /\ g' = <[kr := <[kc := 1]> row]> g.
Proof.
  unfold put, Py.getitem, Py.setitem. intros H.
  destruct (Py.index (length g) r) as [kr|] eqn:Hr; [|discriminate].
  destruct (g !! kr) as [row|] eqn:Hrow; [|discriminate]. cbn in H.
  destruct (Py.index (length row) c) as [kc|] eqn:Hc; [|discriminate]. cbn in H.
  injection H as <-. exists kr, row, kc. auto.
Qed.

Lemma pixel_at_inv g r c v :
  pixel_at g r c = Some v ->
  exists kr row kc,
    Py.index (length g) r = Some kr /\ g !! kr = Some row
    /\ Py.index (length row) c = Some kc /\ row !! kc = Some v.
Proof.
  unfold pixel_at, Py.getitem. intros H.
  destruct (Py.index (length g) r) as [kr|] eqn:Hr; [|discriminate].
  destruct (g !! kr) as [row|] eqn:Hrow; [|discriminate]. cbn in H.
  destruct (Py.index (length row) c) as [kc|] eqn:Hc; [|discriminate].
  exists kr, row, kc. auto.
Qed.

Lemma pixel_at_intro g r c v kr row kc :
  Py.index (length g) r = Some kr -> g !! kr = Some row ->
  Py.index (length row) c = Some kc -> row !! kc = Some v ->
  pixel_at g r c = Some v.
Proof.
  intros H1 H2 H3 H4. unfold pixel_at, Py.getitem.
  rewrite H1, H2. cbn. now rewrite H3.
Qed.

(** A store sets its target. *)
Lemma put_sets g r c g' : put g r c = Some g' -> pixel_at g' r c = Some 1.
Proof.
  intros H. apply put_inv in H as (kr & row & kc & Hr & Hrow & Hc & ->).
  apply (pixel_at_intro _ _ _ _ kr (<[kc := 1]> row) kc).
  - now rewrite length_insert.
  - apply list_lookup_insert_eq. eapply index_lt, Hr.
  - now rewrite length_insert.
  - apply list_lookup_insert_eq. eapply index_lt, Hc.
Qed.

(** A store clears nothing. *)
Lemma put_keeps g r c g' r2 c2 :
  put g r c = Some g' -> pixel_at g r2 c2 = Some 1 -> pixel_at g' r2 c2 = Some 1.
Proof.
  intros H H2. apply put_inv in H as (kr & row & kc & Hr & Hrow & Hc & ->).
  apply pixel_at_inv in H2 as (kr2 & row2 & kc2 & Hr2 & Hrow2 & Hc2 & Hv).
  destruct (decide (kr2 = kr)) as [->|Hne].
  - assert (row2 = row) as -> by congruence.
    apply (pixel_at_intro _ _ _ _ kr (<[kc := 1]> row) kc2).
    + now rewrite length_insert.
    + apply list_lookup_insert_eq. eapply index_lt, Hr.
    + now rewrite length_insert.
    + destruct (decide (kc2 = kc)) as [->|Hnc].
      * apply list_lookup_insert_eq. eapply index_lt, Hc.
      * rewrite list_lookup_insert_ne by congruence. exact Hv.
  - apply (pixel_at_intro _ _ _ _ kr2 row2 kc2); auto.
    + now rewrite length_insert.
    + rewrite list_lookup_insert_ne by congruence. exact Hrow2.
Qed.

(** In bounds, a store does not raise and keeps the shape of the grid. *)
Lemma put_dims h w g r c :
  grid_dims g h w -> 0 <= r < h -> 0 <= c < w ->
  exists g', put g r c = Some g' /\ grid_dims g' h w.
Proof.
  intros [Hlen Hrows] Hr Hc.
  destruct (lookup_lt_is_Some_2 g (Z.to_nat r)) as [row Hrow]; [lia|].
  assert (Z.of_nat (length row) = w) as Hroww.
  { rewrite List.Forall_forall in Hrows. apply Hrows.
    apply list_elem_of_In. eapply list_elem_of_lookup_2, Hrow. }
  exists (<[Z.to_nat r := <[Z.to_nat c := 1]> row]> g). split.
  - unfold put, Py.getitem, Py.setitem.
    rewrite index_in_range by lia. rewrite Hrow. cbn.
    rewrite index_in_range by lia. reflexivity.
  - split; [now rewrite length_insert|].
    apply Forall_insert; [exact Hrows|]. now rewrite length_insert.
Qed.

Lemma blank_dims h w : 0 <= h -> 0 <= w -> grid_dims (blank h w) h w.
Proof.
  intros Hh Hw. unfold blank, grid_dims. rewrite length_replicate.
  split; [lia|]. apply Forall_replicate. rewrite length_replicate. lia.
Qed.

(** *** Where the set pixels of the glyphs land *)

Lemma blit_char_put max_height current_x d g g' :
  blit_char put max_height current_x d g = Some g' ->
  grows g g'
  /\ forall y x,
       0 <= y < height_of d -> 0 <= x < width_of d ->
       glyph_lit d y x = Some true ->
       pixel_at g' (max_height - height_of d + y) (current_x + x) = Some 1.
Proof.
  unfold blit_char. intros Hrun.
  destruct (getkey d "bitmap") as [bm|] eqn:Hbm; [|discriminate].
  destruct (int_field d "width") as [w|] eqn:Hw; [|discriminate].
  destruct (int_field d "height") as [h|] eqn:Hh; [|discriminate].
  destruct (has_dims_intro d w h Hw Hh) as (_ & -> & ->).
  cbn [mbind option_bind] in Hrun.
  assert (Hcell : forall y x g1 g2,
             (row ← subscript bm y; px ← subscript row x;
              if truthy px then put g1 (max_height - h + y) (current_x + x)
              else Some g1) = Some g2 ->
             grows g1 g2).
  { intros y x g1 g2 Hc.
    destruct (subscript bm y) as [row|]; [|discriminate]. cbn in Hc.
    destruct (subscript row x) as [v|]; [|discriminate]. cbn in Hc.
    destruct (truthy v).
    - intros r c. eapply put_keeps, Hc.
    - injection Hc as <-. now intros r c. }
  assert (Hrow : forall y g1 g2,
             for_each (Py.range w)
               (fun x g => row ← subscript bm y; px ← subscript row x;
                  if truthy px then put g (max_height - h + y) (current_x + x)
                  else Some g) g1 = Some g2 ->
             grows g1 g2).
  { intros y g1 g2 Hr.
    eapply (for_each_steps grows) in Hr as [Hr _]; [exact Hr | | |].
    - now intros ? ? ?.
    - intros g3 g4 g5 H1 H2 r c H. auto.
    - intros x g3 g4 _. apply Hcell. }
  eapply (for_each_steps grows) in Hrun as [Hgrow Hall].
  - split; [exact Hgrow|]. intros y x Hy Hx Hlit.
    destruct (Hall y) as (g1 & g2 & _ & Hy_run & Hg2); [now apply in_range|].
    eapply (for_each_steps grows) in Hy_run as [_ Hally].
    + destruct (Hally x) as (g3 & g4 & _ & Hx_run & Hg4); [now apply in_range|].
      apply Hg2, Hg4.
      unfold glyph_lit, lit in Hlit. rewrite Hbm in Hlit.
      cbn [mbind option_bind] in Hlit.
      destruct (subscript bm y) as [row|]; [|discriminate].
      cbn [mbind option_bind] in Hlit, Hx_run.
      destruct (subscript row x) as [v|]; [|discriminate].
      cbn [mbind option_bind] in Hlit, Hx_run.
      injection Hlit as Hv. rewrite Hv in Hx_run. eapply put_sets, Hx_run.
    + now intros ? ? ?.
    + intros g3 g4 g5 H1 H2 r c H. auto.
    + intros x' g3 g4 _. apply Hcell.
  - now intros ? ? ?.
  - intros g3 g4 g5 H1 H2 r c H. auto.
  - intros y g3 g4 _. apply Hrow.
Qed.

Lemma cursor_cons d ds i : cursor (d :: ds) (S i) = width_of d + cursor ds i.
Proof. reflexivity. Qed.

Lemma blit_all_put max_height current_x ds g g' :
  blit_all put max_height current_x ds g = Some g' ->
  grows g g'
  /\ forall i d y x,
       ds !! i = Some d ->
       0 <= y < height_of d -> 0 <= x < width_of d ->
       glyph_lit d y x = Some true ->
       pixel_at g' (max_height - height_of d + y)
                (current_x + cursor ds i + x) = Some 1.
Proof.
  revert current_x g. induction ds as [|d ds IH]; intros cx g; cbn [blit_all].
  - intros [= <-]. split; [now intros r c|]. intros i d y x Hi. discriminate.
  - destruct (blit_char put max_height cx d g) as [g1|] eqn:Hchar; [|discriminate].
    cbn [mbind option_bind].
    destruct (int_field d "width") as [w|] eqn:Hw; [|discriminate].
    cbn [mbind option_bind]. intros Hrest.
    assert (width_of d = w) as Hwd by (unfold width_of; now rewrite Hw).
    apply blit_char_put in Hchar as [Hg1 Hd].
    apply IH in Hrest as [Hg' Hds].
    split; [intros r c H; auto|].
    intros [|i] d' y x Hi Hy Hx Hlit.
    + injection Hi as <-. apply Hg'.
      replace (cx + cursor (d :: ds) 0 + x) with (cx + x)
        by (unfold cursor; cbn; lia).
      now apply Hd.
    + rewrite cursor_cons, Hwd.
      replace (cx + (w + cursor ds i) + x) with (cx + w + cursor ds i + x) by lia.
      now apply Hds.
Qed.

End BlitProofs.

(** ** The line compositor *)

Module ComposeProofs.
Import Json Client LoopProofs CacheProofs BlitProofs.

Section WithNetwork.

Variable net : list string -> string -> http_result.
Variable font_api_url : string.
Variable default_font_size : Z.

Abbreviation fetch := (_fetch_single_char_bitmap net font_api_url).
Abbreviation collect := (Client.collect net font_api_url).
Abbreviation fetch_all := (Client.fetch_all net font_api_url).
Abbreviation compose := (_fetch_font_bitmap net font_api_url default_font_size).

Lemma fetch_all_length text fs s ds s' :
  fetch_all text fs s = (Some ds, s') -> length ds = length text.
Proof.
  revert s ds. induction text as [|c rest IH]; intros s ds; cbn [Client.fetch_all].
  - now intros [= <- _].
  - destruct (fetch c fs s) as [[d|] s1]; [|discriminate].
    destruct (fetch_all rest fs s1) as [[ds1|] s2] eqn:Hrest; [|discriminate].
    intros [= <- ->]. cbn. f_equal. eapply IH, Hrest.
Qed.

(** One iteration of the first loop on a lookup that succeeded with
    integer dimensions. *)
Lemma collect_step c rest fs all mh tw s d s1 :
  fetch c fs s = (Some d, s1) ->
  accepted d = true -> has_dims d = true ->
  collect (c :: rest) fs all mh tw s
  = collect rest fs (all ++ [d]) (Z.max mh (height_of d)) (tw + width_of d) s1.
Proof.
  intros Hf Hacc Hdims. cbn [Client.collect]. rewrite Hf.
  apply accepted_inv in Hacc as (-> & ok & -> & ->).
  apply has_dims_inv in Hdims as [-> ->].
  f_equal. unfold Z.max, Z.gtb.
  rewrite (Z.compare_antisym (height_of d) mh).
  destruct (height_of d ?= mh); reflexivity.
Qed.

(** A completed first loop has looked up every character, and its three
    accumulators are the glyphs, the running maximum of their heights and
    the running sum of their widths. *)
Lemma collect_collected text fs all mh tw s ds' mh' tw' s' :
  collect text fs all mh tw s = (Collected ds' mh' tw', s') ->
  exists ds,
    fetch_all text fs s = (Some ds, s')
    /\ ds' = all ++ ds
    /\ Forall (fun d => has_dims d = true) ds
    /\ mh' = max_from mh (map height_of ds)
    /\ tw' = tw + zsum (map width_of ds).
Proof.
  revert all mh tw s. induction text as [|c rest IH]; intros all mh tw s.
  - cbn. intros [= <- <- <- <-]. exists []. cbn.
    rewrite app_nil_r, Z.add_0_r. auto.
  - cbn [Client.collect Client.fetch_all].
    destruct (fetch c fs s) as [[d|] s1] eqn:Hf; [|discriminate].
    destruct (truthy d); [|discriminate].
    destruct (getkey d "success") as [ok|]; [|discriminate].
    destruct (truthy ok); [|discriminate].
    destruct (int_field d "width") as [w|] eqn:Hw; [|discriminate].
    destruct (int_field d "height") as [h|] eqn:Hh; [|discriminate].
    destruct (has_dims_intro d w h Hw Hh) as (Hdims & Hwd & Hhd).
    intros Hrun.
    destruct (IH _ _ _ _ Hrun) as (ds & Hall & -> & Hd & -> & ->).
    exists (d :: ds). rewrite Hall. repeat split.
    + now rewrite <- app_assoc.
    + now constructor.
    + cbn [map max_from fold_left]. rewrite Hhd. f_equal.
      unfold Z.max, Z.gtb. rewrite (Z.compare_antisym h mh).
      destruct (h ?= mh); reflexivity.
    + cbn [map zsum]. lia.
Qed.

Lemma collect_complete text fs all mh tw s ds s' :
  cache_ok s ->
  fetch_all text fs s = (Some ds, s') ->
  Forall (fun d => has_dims d = true) ds ->
  collect text fs all mh tw s
  = (Collected (all ++ ds) (max_from mh (map height_of ds))
       (tw + zsum (map width_of ds)), s').
Proof.
  revert all mh tw s ds. induction text as [|c rest IH]; intros all mh tw s ds Hok.
  - cbn. intros [= <- <-] _. cbn. now rewrite app_nil_r, Z.add_0_r.
  - cbn [Client.fetch_all].
    destruct (fetch c fs s) as [[d|] s1] eqn:Hf; [|discriminate].
    destruct (fetch_all rest fs s1) as [[ds1|] s2] eqn:Hrest; [|discriminate].
    intros [= <- <-] Hdims. inversion Hdims as [|? ? Hd Hds]; subst.
    destruct (fetch_accepted _ _ _ _ _ _ _ Hok Hf) as [Hacc Hok1].
    rewrite (collect_step _ _ _ _ _ _ _ _ _ Hf Hacc Hd).
    rewrite (IH _ _ _ _ _ Hok1 Hrest Hds).
    cbn [map zsum].
    rewrite <- app_assoc. rewrite Z.add_assoc. reflexivity.
Qed.

(** The first loop gives up only at a lookup that failed. *)
Lemma collect_gaveup text fs all mh tw s s' :
  cache_ok s ->
  collect text fs all mh tw s = (GaveUp, s') ->
  exists pre c post ds s1,
    text = pre ++ c :: post
    /\ fetch_all pre fs s = (Some ds, s1)
    /\ Forall (fun d => has_dims d = true) ds
    /\ fetch c fs s1 = (None, s').
Proof.
  revert all mh tw s. induction text as [|c rest IH]; intros all mh tw s Hok.
  - discriminate.
  - destruct (fetch c fs s) as [[d|] s1] eqn:Hf.
    + destruct (fetch_accepted _ _ _ _ _ _ _ Hok Hf) as [Hacc Hok1].
      destruct (has_dims d) eqn:Hdims.
      * rewrite (collect_step _ _ _ _ _ _ _ _ _ Hf Hacc Hdims). intros Hrun.
        destruct (IH _ _ _ _ Hok1 Hrun) as (pre & c' & post & ds & s2 & -> & Hall & Hd & Hfail).
        exists (c :: pre), c', post, (d :: ds), s2.
        cbn [Client.fetch_all]. rewrite Hf, Hall. repeat split; auto.
      * cbn [Client.collect]. rewrite Hf.
        apply accepted_inv in Hacc as (-> & ok & -> & ->).
        unfold has_dims in Hdims.
        destruct (int_field d "width"), (int_field d "height"); discriminate.
    + cbn [Client.collect]. rewrite Hf. intros [= <-].
      exists [], c, rest, [], s. cbn. auto.
Qed.

(** At the first lookup that fails the loop stops, in the state that
    lookup left. *)
Lemma collect_abort pre c post fs all mh tw s ds s1 s2 :
  cache_ok s ->
  fetch_all pre fs s = (Some ds, s1) ->
  Forall (fun d => has_dims d = true) ds ->
  fetch c fs s1 = (None, s2) ->
  collect (pre ++ c :: post) fs all mh tw s = (GaveUp, s2).
Proof.
  revert all mh tw s ds. induction pre as [|c0 pre IH]; intros all mh tw s ds Hok.
  - cbn. intros [= <- <-] _ Hf. now rewrite Hf.
  - cbn [Client.fetch_all].
    destruct (fetch c0 fs s) as [[d|] s0] eqn:Hf0; [|discriminate].
    destruct (fetch_all pre fs s0) as [[ds1|] s0'] eqn:Hrest; [|discriminate].
    intros [= <- <-] Hdims Hf. inversion Hdims as [|? ? Hd Hds]; subst.
    destruct (fetch_accepted _ _ _ _ _ _ _ Hok Hf0) as [Hacc Hok1].
    change ((c0 :: pre) ++ c :: post) with (c0 :: (pre ++ c :: post)).
    rewrite (collect_step _ _ _ _ _ _ _ _ _ Hf0 Hacc Hd).
    eapply IH; eassumption.
Qed.

(** A composite is the blit of the glyphs looked up for the text, on the
    blank grid of their accumulated dimensions. *)
Lemma compose_bitmap_inv text font_size s B s' :
  compose text font_size s = (RBitmap B, s') ->
  exists ds,
    fetch_all text (actual_font_size default_font_size font_size) s = (Some ds, s')
    /\ ds <> []
    /\ height B = max_from 0 (map height_of ds)
    /\ width B = zsum (map width_of ds)
    /\ blit_all put (height B) 0 ds (blank (height B) (width B)) = Some (bitmap B).
Proof.
  unfold _fetch_font_bitmap.
  destruct (collect text _ [] 0 0 s) as [[| |ds mh tw] s1] eqn:Hc; try discriminate.
  apply collect_collected in Hc as (ds0 & Hall & Heq & _ & -> & ->).
  cbn [app] in Heq. subst ds0.
  destruct ds as [|d ds]; [discriminate|].
  destruct (blit_all put _ 0 (d :: ds) _) as [full|] eqn:Hblit; [|discriminate].
  intros [= <- <-]. exists (d :: ds). cbn [height width bitmap].
  repeat split; auto.
Qed.

Lemma cursor_bounds ds i d :
  Forall (fun d => 0 <= width_of d) ds ->
  ds !! i = Some d ->
  0 <= cursor ds i /\ cursor ds i + width_of d <= zsum (map width_of ds).
Proof.
  intros Hw. revert i. induction Hw as [|d0 ds Hd0 Hds IH]; intros i Hi.
  - discriminate.
  - assert (0 <= zsum (map width_of ds)) as Hrest.
    { apply zsum_nonneg. now apply List.Forall_map. }
    destruct i as [|i].
    + injection Hi as <-. unfold cursor. cbn. lia.
    + rewrite cursor_cons. cbn [map zsum].
      destruct (IH i Hi). lia.
Qed.

Lemma well_formed_widths ds :
  Forall (fun d => well_formed d = true) ds -> Forall (fun d => 0 <= width_of d) ds.
Proof.
  apply List.Forall_impl. intros d Hd. now apply well_formed_inv in Hd.
Qed.

Lemma well_formed_dims ds :
  Forall (fun d => well_formed d = true) ds -> Forall (fun d => has_dims d = true) ds.
Proof.
  apply List.Forall_impl. intros d Hd. apply well_formed_inv in Hd as [Hd _].
  now apply consistent_inv in Hd as (_ & _ & Hd & _).
Qed.

Lemma heights_bound ds m :
  Forall (fun d => height_of d <= max_from m (map height_of ds)) ds.
Proof.
  apply (List.Forall_map height_of (fun h => h <= max_from m (map height_of ds))).
  apply max_from_bound.
Qed.

(** Well-formed glyphs are blitted without an exception, on either store. *)
Lemma blit_well_formed {G} (store : G -> Z -> Z -> option G) (Inv : G -> Prop) ds g :
  let mh := max_from 0 (map height_of ds) in
  let tw := zsum (map width_of ds) in
  (forall g r c, Inv g -> 0 <= r < mh -> 0 <= c < tw ->
                 exists g', store g r c = Some g' /\ Inv g') ->
  Forall (fun d => well_formed d = true) ds ->
  Inv g ->
  exists g', blit_all store mh 0 ds g = Some g' /\ Inv g'.
Proof.
  intros mh tw Hstore Hwf Hg.
  apply (blit_all_total store Inv mh tw Hstore); auto.
  - apply heights_bound.
  - lia.
  - subst tw. lia.
Qed.

(** C1. When the lookups of a non-empty text all succeed with well-formed
    glyphs, [_fetch_font_bitmap] returns a composite whose height is the
    maximum of the glyph heights and whose width is the sum of the glyph
    widths, over a grid of exactly that many rows and columns. *)
Theorem composite_dimensions text font_size s ds s' :
  cache_ok s ->
  fetch_all text (actual_font_size default_font_size font_size) s = (Some ds, s') ->
  text <> [] ->
  Forall (fun d => well_formed d = true) ds ->
  exists B,
    compose text font_size s = (RBitmap B, s')
    /\ height B = max_of (map height_of ds)
    /\ width B = zsum (map width_of ds)
    /\ grid_dims (bitmap B) (height B) (width B).
Proof.
  intros Hok Hall Htext Hwf.
  pose proof (fetch_all_length _ _ _ _ _ Hall) as Hlen.
  unfold _fetch_font_bitmap.
  rewrite (collect_complete _ _ [] 0 0 _ _ _ Hok Hall (well_formed_dims _ Hwf)).
  cbn [app]. rewrite Z.add_0_l.
  destruct ds as [|d ds]; [destruct text; [congruence | discriminate]|].
  destruct (blit_well_formed put
              (fun g => grid_dims g (max_from 0 (map height_of (d :: ds)))
                                  (zsum (map width_of (d :: ds))))
              (d :: ds)
              (blank (max_from 0 (map height_of (d :: ds)))
                     (zsum (map width_of (d :: ds)))))
    as (full & -> & Hfull); auto.
  - intros g r c. apply put_dims.
  - apply blank_dims; [apply max_from_le|].
    apply zsum_nonneg, List.Forall_map, well_formed_widths, Hwf.
  - eexists. split; [reflexivity|]. cbn [height width bitmap].
    repeat split; try apply Hfull.
    cbn [map]. apply max_from_zero.
    inversion Hwf; subst. now apply well_formed_height.
Qed.

(** C2. In a composite, every set pixel [(x, y)] of the [i]-th glyph, of
    height [h], is set at row [(height - h) + y] and column [cursor + x],
    where the cursor is the sum of the widths of the glyphs before it; a
    store never clears a pixel that is set. *)
Theorem bottom_aligned_blit text font_size s B s' :
  compose text font_size s = (RBitmap B, s') ->
  (exists ds,
     fetch_all text (actual_font_size default_font_size font_size) s = (Some ds, s')
     /\ forall i d y x,
          ds !! i = Some d ->
          0 <= y < height_of d -> 0 <= x < width_of d ->
          glyph_lit d y x = Some true ->
          pixel_at (bitmap B) ((height B - height_of d) + y) (cursor ds i + x)
          = Some 1)
  /\ (forall g r c g', put g r c = Some g' -> grows g g').
Proof.
  intros Hrun. split.
  - apply compose_bitmap_inv in Hrun as (ds & Hall & _ & _ & _ & Hblit).
    exists ds. split; [exact Hall|].
    apply blit_all_put in Hblit as [_ Hpix].
    intros i d y x Hi Hy Hx Hlit.
    specialize (Hpix i d y x Hi Hy Hx Hlit).
    now rewrite Z.add_0_l in Hpix.
  - intros g r c g' Hput r2 c2. eapply put_keeps, Hput.
Qed.

(** C3. With a cache filled by the client itself, [_fetch_font_bitmap]
    returns [None] exactly when the text is empty or the lookup of some
    character fails after the lookups before it succeeded; at that lookup
    it stops: the result is [None] and the state is the one the failed
    lookup left, so that no later character is looked up. *)
Theorem compose_fails_fast text font_size s :
  cache_ok s ->
  let fs := actual_font_size default_font_size font_size in
  ((compose text font_size s).1 = RNone <->
   text = [] \/
   exists pre c post ds s1,
     text = pre ++ c :: post
     /\ fetch_all pre fs s = (Some ds, s1)
     /\ Forall (fun d => has_dims d = true) ds
     /\ (fetch c fs s1).1 = None)
  /\ (forall pre c post ds s1,
        text = pre ++ c :: post ->
        fetch_all pre fs s = (Some ds, s1) ->
        Forall (fun d => has_dims d = true) ds ->
        (fetch c fs s1).1 = None ->
        compose text font_size s = (RNone, (fetch c fs s1).2)).
Proof.
  intros Hok fs.
  assert (Habort : forall pre c post ds s1,
             text = pre ++ c :: post ->
             fetch_all pre fs s = (Some ds, s1) ->
             Forall (fun d => has_dims d = true) ds ->
             (fetch c fs s1).1 = None ->
             compose text font_size s = (RNone, (fetch c fs s1).2)).
  { intros pre c post ds s1 -> Hall Hdims Hfail.
    destruct (fetch c fs s1) as [r s2] eqn:Hf. cbn in Hfail. subst r.
    unfold _fetch_font_bitmap. fold fs.
    now rewrite (collect_abort pre c post fs [] 0 0 s ds s1 s2 Hok Hall Hdims Hf). }
  split; [|exact Habort]. split.
  - unfold _fetch_font_bitmap. fold fs.
    destruct (collect text fs [] 0 0 s) as [[| |ds mh tw] s1] eqn:Hc.
    + intros _. right.
      apply (collect_gaveup _ _ _ _ _ _ _ Hok) in Hc
        as (pre & c & post & ds & s0 & -> & Hall & Hd & Hf).
      exists pre, c, post, ds, s0. rewrite Hf. auto.
    + discriminate.
    + apply collect_collected in Hc as (ds0 & Hall & Heq & _).
      cbn [app] in Heq. subst ds0.
      destruct ds as [|d ds].
      * intros _. left. apply fetch_all_length in Hall.
        destruct text; [reflexivity | discriminate].
      * destruct (blit_all put mh 0 (d :: ds) _); discriminate.
  - intros [->|(pre & c & post & ds & s1 & Htext & Hall & Hd & Hf)].
    + reflexivity.
    + now rewrite (Habort pre c post ds s1 Htext Hall Hd Hf).
Qed.

(** C10. After the first loop, when the glyphs are well-formed, every
    position [(x, y)] of every glyph maps to a row in [0, max_height) and
    a column in [0, total_width); every store of the blit has such a
    target, and the blit into the blank grid completes and keeps its
    shape. *)
Theorem blit_in_bounds text fs s ds max_height total_width s' :
  collect text fs [] 0 0 s = (Collected ds max_height total_width, s') ->
  Forall (fun d => well_formed d = true) ds ->
  (forall i d y x,
      ds !! i = Some d ->
      0 <= y < height_of d -> 0 <= x < width_of d ->
      0 <= (max_height - height_of d) + y < max_height
      /\ 0 <= cursor ds i + x < total_width)
  /\ (exists targets,
        blit_targets max_height ds = Some targets
        /\ Forall (fun t => 0 <= t.1 < max_height /\ 0 <= t.2 < total_width) targets)
  /\ (exists full,
        blit_all put max_height 0 ds (blank max_height total_width) = Some full
        /\ grid_dims full max_height total_width).
Proof.
  intros Hc Hwf.
  apply collect_collected in Hc as (ds0 & _ & Heq & _ & -> & ->).
  cbn [app] in Heq. subst ds0. rewrite Z.add_0_l.
  split; [|split].
  - intros i d y x Hi Hy Hx.
    assert (In d ds) as Hin
      by (apply list_elem_of_In; eapply list_elem_of_lookup_2; eassumption).
    pose proof (heights_bound ds 0) as Hh.
    rewrite List.Forall_forall in Hh. specialize (Hh d Hin). cbn beta in Hh.
    destruct (cursor_bounds ds i d (well_formed_widths _ Hwf) Hi).
    lia.
  - unfold blit_targets.
    apply (blit_well_formed record_target
             (Forall (fun t => 0 <= t.1 < max_from 0 (map height_of ds)
                               /\ 0 <= t.2 < zsum (map width_of ds)))); auto.
    intros log r c Hlog Hr Hcol. eexists. split; [reflexivity|].
    apply Forall_app. split; [exact Hlog|]. repeat constructor; cbn; lia.
  - apply (blit_well_formed put
             (fun g => grid_dims g (max_from 0 (map height_of ds))
                                 (zsum (map width_of ds)))); auto.
    + intros g r c. apply put_dims.
    + apply blank_dims; [apply max_from_le|].
      apply zsum_nonneg, List.Forall_map, well_formed_widths, Hwf.
Qed.

End WithNetwork.

Lemma composite_dimensions_witness :
  exists B,
    _fetch_font_bitmap Samples.net_ok Samples.api 8 [65%N; 20320%N] None init
    = (RBitmap B,
       (fetch_all Samples.net_ok Samples.api [65%N; 20320%N] 8 init).2)
    /\ height B = 2 /\ width B = 3
    /\ grid_dims (bitmap B) (height B) (width B).
Proof.
  apply (composite_dimensions Samples.net_ok Samples.api 8 [65%N; 20320%N] None
           init [Samples.glyph_A; Samples.glyph_ni]).
  - apply cache_ok_init.
  - vm_compute. reflexivity.
  - discriminate.
  - repeat constructor.
Defined.

Lemma bottom_aligned_blit_witness :
  (exists ds,
     fetch_all Samples.net_ok Samples.api [65%N; 20320%N] 8 init
     = (Some ds,
        (_fetch_font_bitmap Samples.net_ok Samples.api 8 [65%N; 20320%N] None init).2)
     /\ forall i d y x,
          ds !! i = Some d ->
          0 <= y < height_of d -> 0 <= x < width_of d ->
          glyph_lit d y x = Some true ->
          pixel_at (bitmap Samples.composite_A_ni)
            ((height Samples.composite_A_ni - height_of d) + y)
            (cursor ds i + x) = Some 1)
  /\ (forall g r c g', put g r c = Some g' -> grows g g').
Proof.
  apply (bottom_aligned_blit Samples.net_ok Samples.api 8 [65%N; 20320%N] None init).
  vm_compute. reflexivity.
Defined.

Lemma compose_fails_fast_witness :
  _fetch_font_bitmap Samples.net_ok Samples.api 8 [65%N; 66%N; 20320%N] None init
  = (RNone,
     (_fetch_single_char_bitmap Samples.net_ok Samples.api 66%N 8
        (fetch_all Samples.net_ok Samples.api [65%N] 8 init).2).2).
Proof.
  apply (proj2 (compose_fails_fast Samples.net_ok Samples.api 8
                  [65%N; 66%N; 20320%N] None init cache_ok_init)
           [65%N] 66%N [20320%N] [Samples.glyph_A]).
  - reflexivity.
  - vm_compute. reflexivity.
  - repeat constructor.
  - vm_compute. reflexivity.
Defined.

Lemma blit_in_bounds_witness :
  exists targets,
    blit_targets 2 [Samples.glyph_A; Samples.glyph_ni] = Some targets
    /\ Forall (fun t => 0 <= t.1 < 2 /\ 0 <= t.2 < 3) targets.
Proof.
  apply (blit_in_bounds Samples.net_ok Samples.api [65%N; 20320%N] 8 init
           [Samples.glyph_A; Samples.glyph_ni] 2 3
           (fetch_all Samples.net_ok Samples.api [65%N; 20320%N] 8 init).2).
  - vm_compute. reflexivity.
  - repeat constructor.
Defined.

End ComposeProofs.

(** ** The renderer *)

Module RenderProofs.
Import Json Client LoopProofs.

(** A loop whose body only appends to the trace appends the bodies'
    outputs in order. *)
Lemma for_each_append {A E} (l : list A) (f : A -> list E -> option (list E))
    (g : A -> list E) (trace : list E) :
  (forall a trace, In a l -> f a trace = Some (trace ++ g a)) ->
  for_each l f trace = Some (trace ++ flat_map g l).
Proof.
  revert trace. induction l as [|a l IH]; intros trace Hf; cbn [for_each flat_map].
  - now rewrite app_nil_r.
  - rewrite Hf by now left.
    rewrite IH by (intros a' trace' Ha'; apply Hf; now right).
    now rewrite <- app_assoc.
Qed.

(** Reading a composite inside its declared size does not raise. *)
Lemma lit_total B y x :
  grid_dims (bitmap B) (height B) (width B) ->
  0 <= y < height B -> 0 <= x < width B ->
  exists b, pixel_lit B y x = Some b.
Proof.
  intros [Hlen Hrows] Hy Hx. unfold pixel_lit.
  rewrite getitem_in_range by lia.
  destruct (lookup_lt_is_Some_2 (bitmap B) (Z.to_nat y)) as [row Hrow]; [lia|].
  rewrite Hrow. cbn [mbind option_bind].
  assert (Z.of_nat (length row) = width B) as Hroww.
  { rewrite List.Forall_forall in Hrows. apply Hrows.
    apply list_elem_of_In. eapply list_elem_of_lookup_2, Hrow. }
  rewrite getitem_in_range by lia.
  destruct (lookup_lt_is_Some_2 row (Z.to_nat x)) as [v Hv]; [lia|].
  rewrite Hv. cbn. eauto.
Qed.

(** One iteration of the scrolling loop. *)
Lemma scroll_frame_spec W H B offset trace :
  grid_dims (bitmap B) (height B) (width B) ->
  Oled.scroll_frame W H (width B) (height B) (pixel_lit B) offset trace
  = Some (trace ++ Oled.Fill 0 :: frame_pixels W H B offset
                ++ [Oled.Show; Oled.Sleep]).
Proof.
  intros Hdims. unfold Oled.scroll_frame, frame_pixels.
  rewrite (for_each_append _ _
    (fun y =>
       flat_map
         (fun x =>
            match pixel_lit B y x with
            | Some true =>
                if (0 <=? W - offset + x) && (W - offset + x <? W)
                then [Oled.Pixel (W - offset + x) ((H - height B) / 2 + y) 1]
                else []
            | _ => []
            end)
         (Py.range (width B)))).
  - cbn [mbind option_bind]. f_equal.
    rewrite <- !app_assoc. reflexivity.
  - intros y tr Hy. apply in_range in Hy.
    apply for_each_append. intros x tr' Hx. apply in_range in Hx.
    destruct (lit_total B y x Hdims Hy Hx) as [b ->]. cbn [mbind option_bind].
    unfold Oled.y_offset.
    destruct b; [|now rewrite app_nil_r].
    destruct ((0 <=? W - offset + x) && (W - offset + x <? W));
      [reflexivity | now rewrite app_nil_r].
Qed.

(** The events of a frame are the on-screen images of the set pixels. *)
Lemma in_frame_pixels W H B offset e :
  In e (frame_pixels W H B offset) <->
  exists x y,
    0 <= y < height B /\ 0 <= x < width B /\ pixel_lit B y x = Some true
    /\ 0 <= W - offset + x < W
    /\ e = Oled.Pixel (W - offset + x) ((H - height B) / 2 + y) 1.
Proof.
  unfold frame_pixels. rewrite in_flat_map. split.
  - intros (y & Hy & Hin). apply in_range in Hy.
    apply in_flat_map in Hin as (x & Hx & Hin). apply in_range in Hx.
    destruct (pixel_lit B y x) as [[]|] eqn:Hlit; try now destruct Hin.
    destruct (Z.leb_spec 0 (W - offset + x)), (Z.ltb_spec (W - offset + x) W);
      cbn in Hin; try now destruct Hin.
    destruct Hin as [<-|[]]. exists x, y. repeat split; auto; lia.
  - intros (x & y & Hy & Hx & Hlit & Hpx & ->).
    exists y. split; [now apply in_range|].
    apply in_flat_map. exists x. split; [now apply in_range|].
    rewrite Hlit.
    destruct (Z.leb_spec 0 (W - offset + x)), (Z.ltb_spec (W - offset + x) W);
      cbn; try lia. now left.
Qed.

(** C8. In scrolling mode, on a composite whose grid has its declared
    size, [_render_bitmap] draws one frame per offset: it clears, then for
    every set pixel [(x, y)] it draws [(self_width - offset + x,
    y_offset + y)], with [y_offset = (self_height - height) // 2], if and
    only if [0 <= self_width - offset + x < self_width], then shows and
    pauses; nothing else is drawn. *)
Theorem scroll_frames_drawn W H B :
  grid_dims (bitmap B) (height B) (width B) ->
  _render_bitmap W H true B
  = Some (flat_map
            (fun offset =>
               Oled.Fill 0 :: frame_pixels W H B offset ++ [Oled.Show; Oled.Sleep])
            (scroll_offsets W B))
  /\ forall offset e,
       In e (frame_pixels W H B offset) <->
       exists x y,
         0 <= y < height B /\ 0 <= x < width B /\ pixel_lit B y x = Some true
         /\ 0 <= W - offset + x < W
         /\ e = Oled.Pixel (W - offset + x) ((H - height B) / 2 + y) 1.
Proof.
  intros Hdims. split.
  - unfold _render_bitmap.
    rewrite (for_each_append _ _
               (fun offset => Oled.Fill 0 :: frame_pixels W H B offset
                                ++ [Oled.Show; Oled.Sleep])).
    + reflexivity.
    + intros offset trace _. now apply scroll_frame_spec.
  - intros offset e. apply in_frame_pixels.
Qed.

Lemma scroll_frames_drawn_witness :
  _render_bitmap 4 8 true Samples.composite_A_ni
  = Some (flat_map
            (fun offset =>
               Oled.Fill 0 :: frame_pixels 4 8 Samples.composite_A_ni offset
                 ++ [Oled.Show; Oled.Sleep])
            [0; 2; 4; 6; 8]).
Proof.
  apply (scroll_frames_drawn 4 8 Samples.composite_A_ni).
  split; [reflexivity | repeat constructor].
Defined.

(** Once the offset has reached [self_width + width], a frame is empty. *)
Lemma frame_pixels_exited W H B offset :
  W + width B <= offset -> frame_pixels W H B offset = [].
Proof.
  intros Hoff. destruct (frame_pixels W H B offset) as [|e l] eqn:Hf; [reflexivity|].
  assert (In e (frame_pixels W H B offset)) as Hin by (rewrite Hf; now left).
  apply in_frame_pixels in Hin as (x & y & _ & Hx & _ & Hpx & _). lia.
Qed.

(** The scrolling loop of [demo1/oled_display_size.py] ends on an offset
    at which the bitmap has left the display. *)
Lemma scroll_reaches_end W H B :
  0 <= W + width B ->
  exists earlier offset,
    scroll_offsets W B = earlier ++ [offset]
    /\ W + width B <= offset
    /\ frame_pixels W H B offset = [].
Proof.
  intros Htotal. unfold scroll_offsets, Py.range3.
  set (t := W + width B) in *.
  replace (t + 2 - 0 + 2 - 1) with (t + 3) by lia.
  assert (0 < (t + 3) / 2) as Hn
    by (apply Z.div_str_pos; lia).
  destruct (Z.to_nat ((t + 3) / 2)) as [|n] eqn:Hcount; [lia|].
  rewrite seq_S, map_app. cbn [map Nat.add].
  eexists _, _. split; [reflexivity|].
  assert (t <= 0 + Z.of_nat n * 2) as Hlast.
  { assert (Z.of_nat n = (t + 3) / 2 - 1) as -> by lia.
    pose proof (Z.mul_succ_div_gt (t + 3) 2 ltac:(lia)). lia. }
  split; [exact Hlast|]. now apply frame_pixels_exited.
Qed.

(** C7, where the code departs from it.  In [oled_display.py] the offset
    runs over [range(total_scroll_width)], so the final position
    [self_width + width] is never rendered; on a 128x64 display, the last
    frame of a one-pixel bitmap still draws that pixel, in column 0. *)
Theorem scroll_v1_stops_short :
  (forall W w offset, In offset (ClientV1.scroll_offsets W w) -> offset < W + w)
  /\ exists earlier,
       ClientV1._render_bitmap 128 64 true Samples.dot
       = Some (earlier ++ [Oled.Fill 0; Oled.Pixel 0 31 1; Oled.Show; Oled.Sleep]).
Proof.
  split.
  - intros W w offset Hin. unfold ClientV1.scroll_offsets in Hin.
    apply in_range in Hin. lia.
  - exists (match ClientV1._render_bitmap 128 64 true Samples.dot with
            | Some trace => firstn (length trace - 4) trace
            | None => []
            end).
    vm_compute. reflexivity.
Qed.

End RenderProofs.

(** ** The font service *)

Module FontServerProofs.
Import FontServer.

Lemma lstrip_empty t : Py.lstrip t = [] <-> forallb Py.isspace t = true.
Proof.
  induction t as [|c t IH]; cbn [Py.lstrip forallb]; [tauto|].
  destruct (Py.isspace c); cbn [andb]; [exact IH|].
  split; discriminate.
Qed.

Lemma lstrip_head t c rest : Py.lstrip t = c :: rest -> Py.isspace c = false.
Proof.
  induction t as [|c0 t IH]; cbn [Py.lstrip]; [discriminate|].
  destruct (Py.isspace c0) eqn:Hc0; [exact IH|].
  now intros [= <- _].
Qed.

(** [text.strip()] is empty exactly on the texts made of whitespace. *)
Lemma strip_empty t : Py.strip t = [] <-> forallb Py.isspace t = true.
Proof.
  rewrite <- lstrip_empty. unfold Py.strip. split.
  - intros H. apply (f_equal (@rev N)) in H. rewrite rev_involutive in H.
    cbn in H. apply lstrip_empty in H.
    destruct (Py.lstrip t) as [|c rest] eqn:Hl; [reflexivity|].
    apply lstrip_head in Hl.
    rewrite forallb_forall in H. specialize (H c).
    rewrite H in Hl; [discriminate|].
    apply in_rev. rewrite rev_involutive. now left.
  - intros ->. reflexivity.
Qed.

Section WithPillow.

Variable textbbox : list N -> Z -> option (Z * Z * Z * Z).
Variable getpixel : list N -> Z -> Z -> Z -> bool.

(** C9, as the code has it.  For a text that is empty or all whitespace,
    measured with a box of non-negative extent, at a font size of at least
    3: the reply is a success with a positive width, namely the measured
    width or, when that is zero, 1 for the empty text and
    [font_size // 3] per character otherwise; its height is the font size
    when the measured height is zero, and the measured height otherwise. *)
Theorem whitespace_reply_size text font_size bbox0 bbox1 bbox2 bbox3 :
  forallb Py.isspace text = true ->
  textbbox text font_size = Some (bbox0, bbox1, bbox2, bbox3) ->
  0 <= bbox2 - bbox0 -> 0 <= bbox3 - bbox1 ->
  3 <= font_size ->
  exists bitmap width height,
    text_to_bitmap textbbox getpixel text font_size = Ok bitmap width height
    /\ 0 < width
    /\ width = (if bbox2 - bbox0 =? 0
                then match text with
                     | [] => 1
                     | _ => font_size / 3 * Z.of_nat (length text)
                     end
                else bbox2 - bbox0)
    /\ height = (if bbox3 - bbox1 =? 0 then font_size else bbox3 - bbox1).
Proof.
  intros Hspace Hbox Hw Hh Hfs.
  apply strip_empty in Hspace.
  unfold text_to_bitmap. rewrite Hbox, Hspace.
  assert (0 < font_size / 3) as Hest by (apply Z.div_str_pos; lia).
  set (w := if (bbox2 - bbox0 =? 0) && (Z.of_nat (length text) >? 0)
            then font_size / 3 * Z.of_nat (length text)
            else if (bbox2 - bbox0 =? 0) && (Z.of_nat (length text) =? 0)
                 then 1 else bbox2 - bbox0).
  set (h := if bbox3 - bbox1 =? 0 then font_size else bbox3 - bbox1).
  assert (w = (if bbox2 - bbox0 =? 0
               then match text with
                    | [] => 1
                    | _ => font_size / 3 * Z.of_nat (length text)
                    end
               else bbox2 - bbox0)) as Hwidth.
  { subst w. destruct (bbox2 - bbox0 =? 0); [|reflexivity].
    destruct text; reflexivity. }
  assert (0 < w) as Hpos.
  { rewrite Hwidth. destruct (Z.eqb_spec (bbox2 - bbox0) 0); [|lia].
    destruct text; [lia|]. cbn [length]. nia. }
  assert (0 < h) as Hhpos.
  { subst h. destruct (Z.eqb_spec (bbox3 - bbox1) 0); lia. }
  destruct (Z.ltb_spec w 0); [lia|].
  destruct (Z.ltb_spec h 0); [lia|].
  cbn [orb]. eexists _, w, h. repeat split; auto.
Qed.

End WithPillow.

Lemma whitespace_reply_size_witness :
  exists bitmap width height,
    text_to_bitmap Samples.no_extent Samples.no_ink [32%N; 32%N] 24
    = Ok bitmap width height
    /\ 0 < width /\ width = 16 /\ height = 24.
Proof.
  apply (whitespace_reply_size Samples.no_extent Samples.no_ink [32%N; 32%N] 24 0 0 0 0);
    reflexivity || lia.
Defined.

(** C9 fails as stated: a measured height that is not zero is kept, also
    when the text is all whitespace. *)
Lemma whitespace_reply_keeps_measured_height :
  exists bitmap,
    forallb Py.isspace [9%N] = true
    /\ text_to_bitmap Samples.boxed Samples.no_ink [9%N] 24 = Ok bitmap 12 17
    /\ 17 <> 24.
Proof. eexists. split; [reflexivity|]. split; [vm_compute; reflexivity | lia]. Qed.

(** At font sizes 1 and 2 the estimated width of a space is zero, and so
    is the width of the reply. *)
Lemma whitespace_width_zero_at_small_size :
  get_font_bitmap Samples.no_extent Samples.no_ink (Some [32%N]) (Int 2)
  = (Ok [[]; []] 0 2, 200).
Proof. reflexivity. Qed.

End FontServerProofs.

(** ** More on the percent-encoder *)

Module UrlEncodeFacts.
Import UrlEncode UrlEncodeProofs.
Local Open Scope N_scope.

Lemma inner_loop_acc (bs : list N) (acc : string) :
  fold_left (fun acc b => String.append acc (String "%" (format_02X b))) bs acc
  = String.append acc
      (fold_left (fun acc b => String.append acc (String "%" (format_02X b)))
         bs EmptyString).
Proof.
  revert acc. induction bs as [|b bs IH]; intros acc; cbn [fold_left].
  - symmetry. apply append_empty_r.
  - rewrite IH. rewrite (IH (String.append EmptyString _)).
    now rewrite append_assoc.
Qed.

Lemma outer_loop_acc (text : list N) (acc : string) :
  fold_left
    (fun encoded_result char =>
       if char_in char safe_chars
       then String.append encoded_result (String (ascii_of_N char) EmptyString)
       else
         fold_left
           (fun encoded_result byte =>
              String.append encoded_result (String "%" (format_02X byte)))
           (utf8_encode char) encoded_result)
    text acc
  = String.append acc (_urlencode_chinese text).
Proof.
  unfold _urlencode_chinese.
  revert acc. induction text as [|c text IH]; intros acc; cbn [fold_left].
  - symmetry. apply append_empty_r.
  - rewrite IH. symmetry. rewrite IH. symmetry.
    rewrite <- append_assoc. f_equal.
    destruct (char_in c safe_chars); [reflexivity|].
    apply inner_loop_acc.
Qed.

(** X2. Encoding is character by character: the encoding of a
    concatenation is the concatenation of the encodings. *)
Theorem urlencode_app (text1 text2 : list N) :
  _urlencode_chinese (text1 ++ text2)
  = String.append (_urlencode_chinese text1) (_urlencode_chinese text2).
Proof.
  unfold _urlencode_chinese at 1. rewrite fold_left_app.
  fold (_urlencode_chinese text1). apply outer_loop_acc.
Qed.

Lemma list_ascii_app (s t : string) :
  list_ascii_of_string (String.append s t)
  = list_ascii_of_string s ++ list_ascii_of_string t.
Proof.
  induction s as [|a s IH]; [reflexivity|].
  rewrite append_cons. cbn [list_ascii_of_string app]. now rewrite IH.
Qed.

Lemma percent_byte_safe b :
  b < 256 -> forallb url_safe (list_ascii_of_string (percent_byte b)) = true.
Proof.
  intros Hb.
  apply (below_cases
           (fun b => forallb url_safe (list_ascii_of_string (percent_byte b))) 256);
    [vm_compute; reflexivity | exact Hb].
Qed.

Lemma encode_char_safe c :
  scalar c -> forallb url_safe (list_ascii_of_string (encode_char c)) = true.
Proof.
  intros Hc. unfold encode_char. destruct (unreserved c) eqn:Hu.
  - cbn [list_ascii_of_string forallb]. unfold url_safe.
    destruct (unreserved_ascii c Hu) as [Hlt _].
    rewrite N_ascii_embedding by lia. rewrite Hu.
    now rewrite orb_true_r.
  - pose proof (utf8_encode_bytes c Hc) as Hbytes.
    induction Hbytes as [|b bs Hb _ IH]; [reflexivity|].
    cbn [map join fold_right]. rewrite list_ascii_app, forallb_app.
    rewrite (percent_byte_safe b Hb). exact IH.
Qed.

(** X1. The encoded form of a text of Unicode scalar values consists of
    percent signs and unreserved characters only: nothing in it needs to
    be escaped in a query string. *)
Theorem urlencode_url_safe (text : list N) :
  Forall scalar text ->
  forallb url_safe (list_ascii_of_string (_urlencode_chinese text)) = true.
Proof.
  intros Htext.
  assert (_urlencode_chinese text = encode_spec text) as ->.
  { unfold _urlencode_chinese. now rewrite urlencode_acc. }
  unfold encode_spec.
  induction Htext as [|c text Hc _ IH]; [reflexivity|].
  cbn [map join fold_right]. rewrite list_ascii_app, forallb_app.
  rewrite (encode_char_safe c Hc). exact IH.
Qed.

Lemma urlencode_url_safe_witness :
  forallb url_safe
    (list_ascii_of_string (_urlencode_chinese [20320; 32; 38; 61; 35; 97]))
  = true.
Proof.
  apply (urlencode_url_safe [20320; 32; 38; 61; 35; 97]).
  repeat constructor; unfold scalar; lia.
Defined.

(** UTF-8 is prefix-free: the first character of a byte sequence is
    determined. *)
Lemma utf8_encode_prefix c c' r r' :
  c < 1114112 -> c' < 1114112 ->
  utf8_encode c ++ r = utf8_encode c' ++ r' -> c = c' /\ r = r'.
Proof.
  unfold utf8_encode. intros Hc Hc'.
  destruct (N.ltb_spec c 128), (N.ltb_spec c' 128);
    [| destruct (N.ltb_spec c' 2048); [|destruct (N.ltb_spec c' 65536)]
     | destruct (N.ltb_spec c 2048); [|destruct (N.ltb_spec c 65536)]
     | destruct (N.ltb_spec c 2048), (N.ltb_spec c' 2048);
       [| destruct (N.ltb_spec c' 65536) | destruct (N.ltb_spec c 65536)
        | destruct (N.ltb_spec c 65536), (N.ltb_spec c' 65536)]];
    cbn [app]; intros Heq; injection Heq; intros; subst;
    (split; [nlia | reflexivity]) || (exfalso; nlia).
Qed.

Lemma utf8_bytes_inj text1 text2 :
  Forall scalar text1 -> Forall scalar text2 ->
  utf8_bytes text1 = utf8_bytes text2 -> text1 = text2.
Proof.
  assert (Hlt : forall c, scalar c -> c < 1114112) by (unfold scalar; lia).
  assert (Hne : forall c, utf8_encode c <> []).
  { intros c. unfold utf8_encode.
    repeat match goal with
           | |- context [?a <? ?b] => destruct (a <? b)
           end; discriminate. }
  intros H1. revert text2.
  induction H1 as [|c t1 Hc _ IH]; intros text2 H2 Heq.
  - destruct H2 as [|c' t2 _ _]; [reflexivity|].
    unfold utf8_bytes in Heq. cbn [flat_map] in Heq.
    symmetry in Heq. apply app_eq_nil in Heq as [Heq _].
    now apply Hne in Heq.
  - destruct H2 as [|c' t2 Hc' H2].
    + unfold utf8_bytes in Heq. cbn [flat_map] in Heq.
      apply app_eq_nil in Heq as [Heq _]. now apply Hne in Heq.
    + unfold utf8_bytes in Heq. cbn [flat_map] in Heq.
      apply utf8_encode_prefix in Heq as [-> Heq]; auto.
      f_equal. now apply IH.
Qed.

(** X3. Encoding loses nothing: two texts of Unicode scalar values with
    the same encoded form are the same text. *)
Theorem urlencode_inj (text1 text2 : list N) :
  Forall scalar text1 -> Forall scalar text2 ->
  _urlencode_chinese text1 = _urlencode_chinese text2 -> text1 = text2.
Proof.
  intros H1 H2 Heq.
  apply utf8_bytes_inj; [exact H1 | exact H2 |].
  rewrite <- (percent_decode_spec text1 H1), <- (percent_decode_spec text2 H2).
  assert (Henc : forall t, Forall scalar t -> _urlencode_chinese t = encode_spec t)
    by (intros t Ht; unfold _urlencode_chinese; now rewrite urlencode_acc).
  now rewrite <- !Henc, Heq by assumption.
Qed.

Lemma urlencode_inj_witness :
  [20320; 32] = [20320; 32].
Proof.
  apply (urlencode_inj [20320; 32] [20320; 32]).
  - repeat constructor; unfold scalar; lia.
  - repeat constructor; unfold scalar; lia.
  - reflexivity.
Defined.

End UrlEncodeFacts.

(** ** More on the cache and the compositor *)

Module CacheFacts.
Import Json Client LoopProofs CacheProofs BlitProofs ComposeProofs.

Section WithNetwork.

Variable net : list string -> string -> http_result.
Variable font_api_url : string.
Variable default_font_size : Z.

Abbreviation fetch := (_fetch_single_char_bitmap net font_api_url).
Abbreviation collect := (Client.collect net font_api_url).
Abbreviation fetch_all := (Client.fetch_all net font_api_url).
Abbreviation compose := (_fetch_font_bitmap net font_api_url default_font_size).
Abbreviation later := (Client.later net font_api_url).

(** A lookup sends no request when the key is cached, one otherwise. *)
Lemma fetch_requests char font_size s :
  requests (fetch char font_size s).2
  = match chinese_font_cache s !! (char, font_size) with
    | Some _ => requests s
    | None => request_url font_api_url char font_size :: requests s
    end.
Proof.
  destruct (chinese_font_cache s !! (char, font_size)) as [d0|] eqn:Hc.
  - now rewrite (fetch_hit _ _ _ _ _ _ Hc).
  - rewrite (fetch_miss _ _ _ _ _ Hc). cbn zeta.
    repeat match goal with
           | |- context [match ?p with _ => _ end] => destruct p
           end; reflexivity.
Qed.

(** X4. What a lookup returns is what the cache holds for the key
    afterwards; no other key changes; and the lookup sends no request
    when the key was cached, one request otherwise. *)
Theorem lookup_frame char font_size s :
  let r := fetch char font_size s in
  r.1 = chinese_font_cache r.2 !! (char, font_size)
  /\ (forall key, key <> (char, font_size) ->
                  chinese_font_cache r.2 !! key = chinese_font_cache s !! key)
  /\ requests r.2
     = match chinese_font_cache s !! (char, font_size) with
       | Some _ => requests s
       | None => request_url font_api_url char font_size :: requests s
       end.
Proof.
  cbn zeta. split; [|split; [|apply fetch_requests]].
  - destruct (fetch char font_size s) as [[d|] s1] eqn:Hf; cbn [fst snd].
    + symmetry. eapply fetch_some_cached, Hf.
    + now apply fetch_none_cache in Hf as (_ & -> & _).
  - intros key Hkey.
    destruct (chinese_font_cache s !! (char, font_size)) as [d0|] eqn:Hc.
    + now rewrite (fetch_hit _ _ _ _ _ _ Hc).
    + rewrite (fetch_miss _ _ _ _ _ Hc). cbn zeta.
      repeat match goal with
             | |- context [match ?p with _ => _ end] => destruct p
             end; cbn [snd chinese_font_cache]; try reflexivity.
      now rewrite lookup_insert_ne.
Qed.

Lemma later_trans s1 s2 s3 : later s1 s2 -> later s2 s3 -> later s1 s3.
Proof.
  intros H12 H23. induction H23 as [|c fs s3 _ IH]; [exact H12|].
  now constructor.
Qed.

Lemma fetch_later char font_size s : later s (fetch char font_size s).2.
Proof. repeat constructor. Qed.

Lemma fetch_all_later text fs s : later s (fetch_all text fs s).2.
Proof.
  revert s. induction text as [|c rest IH]; intros s; cbn [Client.fetch_all].
  - constructor.
  - pose proof (fetch_later c fs s) as Hstep.
    destruct (fetch c fs s) as [[d|] s1]; [|exact Hstep].
    specialize (IH s1).
    destruct (fetch_all rest fs s1) as [[ds|] s2];
      cbn [snd] in *; eapply later_trans; eassumption.
Qed.

Lemma collect_later text fs all mh tw s : later s (collect text fs all mh tw s).2.
Proof.
  revert all mh tw s. induction text as [|c rest IH]; intros all mh tw s;
    cbn [Client.collect].
  - constructor.
  - pose proof (fetch_later c fs s) as Hstep.
    destruct (fetch c fs s) as [[d|] s1]; [|exact Hstep]. cbn [snd] in Hstep.
    repeat match goal with
           | |- context [match ?p with _ => _ end] => destruct p
           end; try exact Hstep.
    all: eapply later_trans; [exact Hstep | apply IH].
Qed.

Lemma compose_later text font_size s : later s (compose text font_size s).2.
Proof.
  unfold _fetch_font_bitmap.
  pose proof (collect_later text (actual_font_size default_font_size font_size)
                [] 0 0 s) as H.
  destruct (collect text _ [] 0 0 s) as [[| |ds mh tw] s1]; cbn [snd] in *;
    try exact H.
  destruct ds; [exact H|].
  destruct (blit_all put mh 0 _ _); exact H.
Qed.

Lemma later_cache_ok s s' : later s s' -> cache_ok s -> cache_ok s'.
Proof.
  induction 1 as [|c fs s1 _ IH]; intros Hok; [exact Hok|].
  apply fetch_cache_ok, IH, Hok.
Qed.

Lemma later_requests s s' :
  later s s' -> exists sent, requests s' = sent ++ requests s.
Proof.
  induction 1 as [|c fs s1 _ (sent & IH)]; [now exists []|].
  rewrite fetch_requests, IH.
  destruct (chinese_font_cache s1 !! (c, fs)); [now exists sent|].
  now exists (request_url font_api_url c fs :: sent).
Qed.

(** X5. Whatever a call of [_fetch_font_bitmap] ends with, the cache
    afterwards contains the cache before (nothing is evicted or replaced),
    it still holds only accepted replies, and the requests sent before are
    a suffix of the requests sent. *)
Theorem compose_keeps_cache text font_size s :
  let s' := (compose text font_size s).2 in
  chinese_font_cache s ⊆ chinese_font_cache s'
  /\ (cache_ok s -> cache_ok s')
  /\ exists sent, requests s' = sent ++ requests s.
Proof.
  cbn zeta. pose proof (compose_later text font_size s) as Hl.
  split; [|split].
  - apply map_subseteq_spec. intros key d Hkey.
    eapply later_keeps; eassumption.
  - now apply later_cache_ok.
  - now apply later_requests.
Qed.

(** At most one request per character. *)
Lemma collect_sends text fs all mh tw s :
  (length (requests (collect text fs all mh tw s).2)
   <= length (requests s) + length text)%nat.
Proof.
  revert all mh tw s. induction text as [|c rest IH]; intros all mh tw s;
    cbn [Client.collect].
  - cbn. lia.
  - assert (length (requests (fetch c fs s).2) <= S (length (requests s)))%nat
      as Hstep.
    { rewrite fetch_requests. destruct (chinese_font_cache s !! (c, fs)); cbn; lia. }
    destruct (fetch c fs s) as [[d|] s1]; cbn [snd length] in *; [|lia].
    repeat match goal with
           | |- context [match ?p with _ => _ end] => destruct p
           end; cbn [snd]; try lia.
    all: etransitivity; [apply IH|]; lia.
Qed.

Lemma compose_sends_at_most text font_size s :
  (length (requests (compose text font_size s).2)
   <= length (requests s) + length text)%nat.
Proof.
  unfold _fetch_font_bitmap.
  pose proof (collect_sends text (actual_font_size default_font_size font_size)
                [] 0 0 s) as H.
  destruct (collect text _ [] 0 0 s) as [[| |ds mh tw] s1]; cbn [snd] in *;
    try exact H.
  destruct ds; [exact H|].
  destruct (blit_all put mh 0 _ _); exact H.
Qed.

(** Once a text has been looked up, it is looked up from the cache. *)
Lemma fetch_all_again text fs s ds s1 :
  fetch_all text fs s = (Some ds, s1) ->
  forall s2, later s1 s2 -> fetch_all text fs s2 = (Some ds, s2).
Proof.
  revert s ds. induction text as [|c rest IH]; intros s ds; cbn [Client.fetch_all].
  - now intros [= <- _] s2 _.
  - destruct (fetch c fs s) as [[d|] sa] eqn:Hf; [|discriminate].
    destruct (fetch_all rest fs sa) as [[ds1|] sb] eqn:Hrest; [|discriminate].
    intros [= <- <-] s2 Hl.
    assert (later sa s2) as Hla.
    { eapply later_trans; [|exact Hl].
      pose proof (fetch_all_later rest fs sa) as H. now rewrite Hrest in H. }
    apply fetch_some_cached in Hf.
    rewrite (fetch_hit net font_api_url c fs s2 d)
      by (eapply later_keeps; eassumption).
    now rewrite (IH _ _ Hrest s2 Hl).
Qed.

(** X7. A text that has been composed is composed again from the cache:
    in any later state the same call returns the same composite, sends no
    request and leaves the state as it is. *)
Theorem compose_again text font_size s B s1 :
  cache_ok s ->
  compose text font_size s = (RBitmap B, s1) ->
  forall s2, later s1 s2 -> compose text font_size s2 = (RBitmap B, s2).
Proof.
  intros Hok Hrun s2 Hl. unfold _fetch_font_bitmap in *.
  set (fs := actual_font_size default_font_size font_size) in *.
  destruct (collect text fs [] 0 0 s) as [[| |ds mh tw] sa] eqn:Hc;
    try discriminate.
  pose proof (collect_later text fs [] 0 0 s) as Hls. rewrite Hc in Hls.
  cbn [snd] in Hls.
  apply collect_collected in Hc as (ds0 & Hall & Heq & Hdims & -> & ->).
  cbn [app] in Heq. subst ds0.
  assert (sa = s1) as ->.
  { destruct ds; [discriminate|].
    destruct (blit_all put _ 0 _ _); [|discriminate]. now injection Hrun. }
  assert (cache_ok s2) as Hok2.
  { eapply later_cache_ok; [|exact Hok]. eapply later_trans; eassumption. }
  rewrite (collect_complete net font_api_url text fs [] 0 0 s2 ds s2 Hok2
             (fetch_all_again _ _ _ _ _ Hall s2 Hl) Hdims).
  cbn [app]. destruct ds; [discriminate|].
  destruct (blit_all put _ 0 _ _); [|discriminate].
  injection Hrun as <-. reflexivity.
Qed.

End WithNetwork.

Lemma compose_keeps_cache_witness :
  cache_ok (_fetch_font_bitmap Samples.net_ok Samples.api 8
              [65%N; 66%N] None init).2.
Proof.
  apply (compose_keeps_cache Samples.net_ok Samples.api 8 [65%N; 66%N] None init).
  apply cache_ok_init.
Defined.

Lemma compose_again_witness :
  let s1 := (_fetch_font_bitmap Samples.net_ok Samples.api 8
               [65%N; 20320%N] None init).2 in
  _fetch_font_bitmap Samples.net_ok Samples.api 8 [65%N; 20320%N] None s1
  = (RBitmap Samples.composite_A_ni, s1).
Proof.
  intros s1.
  apply (compose_again Samples.net_ok Samples.api 8 [65%N; 20320%N] None init
           Samples.composite_A_ni s1 cache_ok_init).
  - vm_compute. reflexivity.
  - constructor.
Defined.

End CacheFacts.

(** ** The composite, pixel by pixel *)

Module BlitFacts.
Import Json Client LoopProofs CacheProofs BlitProofs ComposeProofs.

Lemma index_nonneg len i k :
  Py.index len i = Some k -> 0 <= i -> k = Z.to_nat i /\ i < Z.of_nat len.
Proof.
  unfold Py.index. intros H Hi.
  destruct (Z.leb_spec 0 i); [|lia].
  destruct (Z.ltb_spec i (Z.of_nat len)); cbn in H.
  - injection H as <-. auto.
  - destruct (Z.leb_spec (- Z.of_nat len) i), (Z.ltb_spec i 0); cbn in H;
      try discriminate; lia.
Qed.

(** A store changes its target only. *)
Lemma put_other g r c g' r2 c2 :
  put g r c = Some g' ->
  0 <= r -> 0 <= c -> 0 <= r2 -> 0 <= c2 ->
  (r2, c2) <> (r, c) ->
  pixel_at g' r2 c2 = pixel_at g r2 c2.
Proof.
  intros H Hr Hc Hr2 Hc2 Hne.
  apply put_inv in H as (kr & row & kc & Hir & Hrow & Hic & ->).
  apply index_nonneg in Hir as [-> Hrlt]; [|exact Hr].
  apply index_nonneg in Hic as [-> Hclt]; [|exact Hc].
  unfold pixel_at, Py.getitem. rewrite length_insert.
  destruct (Py.index (length g) r2) as [k2|] eqn:Hi2; [|reflexivity].
  apply index_nonneg in Hi2 as [-> Hr2lt]; [|exact Hr2].
  destruct (decide (r2 = r)) as [->|Hrne].
  - rewrite list_lookup_insert_eq by lia. rewrite Hrow.
    cbn [mbind option_bind]. rewrite length_insert.
    destruct (Py.index (length row) c2) as [k3|] eqn:Hi3; [|reflexivity].
    apply index_nonneg in Hi3 as [-> Hc2lt]; [|exact Hc2].
    apply list_lookup_insert_ne. intros Heq.
    apply Hne. f_equal. lia.
  - rewrite list_lookup_insert_ne by lia. reflexivity.
Qed.

Lemma blank_pixel h w r c :
  0 <= r < h -> 0 <= c < w -> pixel_at (blank h w) r c = Some 0.
Proof.
  intros Hr Hc. unfold pixel_at, blank.
  rewrite getitem_in_range by (rewrite length_replicate; lia).
  rewrite lookup_replicate_2 by lia. cbn [mbind option_bind].
  rewrite getitem_in_range by (rewrite length_replicate; lia).
  apply lookup_replicate_2. lia.
Qed.

(** The blit does not raise when every store it makes is allowed. *)
Section Allowed.

Context {G : Type} (store : G -> Z -> Z -> option G) (Inv : G -> Prop).
Variable allowed : Z -> Z -> Prop.
Variable max_height : Z.

Hypothesis store_ok :
  forall g r c, Inv g -> allowed r c -> exists g', store g r c = Some g' /\ Inv g'.

Lemma blit_char_allowed d current_x g :
  consistent d = true ->
  (forall y x, 0 <= y < height_of d -> 0 <= x < width_of d ->
               glyph_lit d y x = Some true ->
               allowed (max_height - height_of d + y) (current_x + x)) ->
  Inv g ->
  exists g', blit_char store max_height current_x d g = Some g' /\ Inv g'.
Proof.
  intros Hcons Hallowed Hg.
  destruct (consistent_inv d Hcons) as (rows & Hbm & Hdims & _).
  apply has_dims_inv in Hdims as [Hwd Hht].
  unfold blit_char. rewrite Hbm, Hwd, Hht. cbn [mbind option_bind].
  apply for_each_total; [exact Hg|]. intros y g0 Hy Hg0.
  apply for_each_total; [exact Hg0|]. intros x g1 Hx Hg1.
  apply in_range in Hy, Hx.
  destruct (consistent_read d y x Hcons Hy Hx) as (bm & row & v & Hbm' & Hrow & Hv).
  rewrite Hbm in Hbm'. injection Hbm' as <-.
  rewrite Hrow. cbn [mbind option_bind]. rewrite Hv. cbn [mbind option_bind].
  destruct (truthy v) eqn:Htruthy; [|eauto].
  apply store_ok; [exact Hg1|]. apply Hallowed; [exact Hy | exact Hx |].
  unfold glyph_lit, lit. rewrite Hbm. cbn [mbind option_bind].
  rewrite Hrow. cbn [mbind option_bind]. rewrite Hv. cbn. now rewrite Htruthy.
Qed.

Lemma blit_all_allowed ds current_x g :
  Forall (fun d => consistent d = true) ds ->
  (forall i d y x,
      ds !! i = Some d ->
      0 <= y < height_of d -> 0 <= x < width_of d ->
      glyph_lit d y x = Some true ->
      allowed (max_height - height_of d + y) (current_x + cursor ds i + x)) ->
  Inv g ->
  exists g', blit_all store max_height current_x ds g = Some g' /\ Inv g'.
Proof.
  intros Hcons. revert current_x g.
  induction Hcons as [|d ds Hd _ IH]; intros cx g Hallowed Hg; cbn [blit_all].
  - eauto.
  - destruct (blit_char_allowed d cx g Hd) as (g1 & -> & Hg1); [|exact Hg|].
    { intros y x Hy Hx Hlit.
      specialize (Hallowed 0%nat d y x eq_refl Hy Hx Hlit).
      replace (cx + cursor (d :: ds) 0 + x) with (cx + x) in Hallowed
        by (unfold cursor; cbn; lia).
      exact Hallowed. }
    destruct (consistent_inv d Hd) as (_ & _ & Hdims & _).
    apply has_dims_inv in Hdims as [-> _]. cbn [mbind option_bind].
    apply IH; [|exact Hg1].
    intros i d' y x Hi Hy Hx Hlit.
    specialize (Hallowed (S i) d' y x Hi Hy Hx Hlit).
    rewrite cursor_cons in Hallowed.
    replace (cx + width_of d + cursor ds i + x)
      with (cx + (width_of d + cursor ds i) + x) by lia.
    exact Hallowed.
Qed.

End Allowed.

Section WithNetwork.

Variable net : list string -> string -> http_result.
Variable font_api_url : string.
Variable default_font_size : Z.

(** X8. The composite of well-formed glyphs holds exactly the set pixels
    of the glyphs: every position of the grid is 1 when it is the
    bottom-aligned image of a set glyph pixel, and 0 otherwise. *)
Theorem composite_pixels text font_size s B s' ds :
  _fetch_font_bitmap net font_api_url default_font_size text font_size s
  = (RBitmap B, s') ->
  fetch_all net font_api_url text
    (actual_font_size default_font_size font_size) s = (Some ds, s') ->
  Forall (fun d => well_formed d = true) ds ->
  forall r c,
    0 <= r < height B -> 0 <= c < width B ->
    (pixel_at (bitmap B) r c = Some 1 /\ lands ds (height B) r c)
    \/ (pixel_at (bitmap B) r c = Some 0 /\ ~ lands ds (height B) r c).
Proof.
  intros Hrun Hall Hwf.
  apply compose_bitmap_inv in Hrun as (ds0 & Hall0 & _ & Hh & Hw & Hblit).
  rewrite Hall in Hall0. injection Hall0 as <-.
  set (mh := height B) in *. set (tw := width B) in *.
  pose (Inv := fun g : list (list Z) =>
          grid_dims g mh tw
          /\ forall r c, 0 <= r < mh -> 0 <= c < tw ->
                         pixel_at g r c = Some 0
                         \/ (pixel_at g r c = Some 1 /\ lands ds mh r c)).
  pose (allowed := fun r c : Z =>
          (0 <= r < mh /\ 0 <= c < tw) /\ lands ds mh r c).
  destruct (blit_all_allowed put Inv allowed mh) with (ds := ds)
    (current_x := 0) (g := blank mh tw) as (g' & Hg' & [_ Hpix]).
  - intros g r c [Hdims Hg] [[Hr Hc] Hlands].
    destruct (put_dims mh tw g r c Hdims Hr Hc) as (g1 & Hput & Hdims1).
    exists g1. split; [exact Hput|]. split; [exact Hdims1|].
    intros r2 c2 Hr2 Hc2.
    destruct (decide ((r2, c2) = (r, c))) as [[= -> ->]|Hne].
    + right. split; [eapply put_sets, Hput | exact Hlands].
    + rewrite (put_other g r c g1 r2 c2 Hput) by (lia || exact Hne).
      now apply Hg.
  - eapply List.Forall_impl; [|exact Hwf].
    intros d Hd. now apply well_formed_inv in Hd.
  - intros i d y x Hi Hy Hx Hlit. rewrite Z.add_0_l. split.
    + assert (In d ds) as Hin
        by (apply list_elem_of_In; eapply list_elem_of_lookup_2; eassumption).
      pose proof (heights_bound ds 0) as Hhs.
      rewrite List.Forall_forall in Hhs. specialize (Hhs d Hin). cbn beta in Hhs.
      destruct (cursor_bounds ds i d (well_formed_widths _ Hwf) Hi).
      rewrite Hh, Hw. lia.
    + exists i, d, y, x. repeat split; auto; lia.
  - split.
    + apply blank_dims; [rewrite Hh | rewrite Hw].
      * apply max_from_le.
      * apply zsum_nonneg, List.Forall_map, well_formed_widths, Hwf.
    + intros r c Hr Hc. left. now apply blank_pixel.
  - rewrite Hblit in Hg'. injection Hg' as <-.
    intros r c Hr Hc.
    destruct (Hpix r c Hr Hc) as [Hzero|Hone]; [right | now left].
    split; [exact Hzero|].
    intros (i & d & y & x & Hi & Hy & Hx & Hlit & -> & ->).
    apply blit_all_put in Hblit as [_ Hset].
    specialize (Hset i d y x Hi Hy Hx Hlit).
    rewrite Z.add_0_l in Hset. congruence.
Qed.

End WithNetwork.

Lemma composite_pixels_witness :
  (pixel_at (bitmap Samples.composite_A_ni) 0 2 = Some 1
   /\ lands [Samples.glyph_A; Samples.glyph_ni] 2 0 2)
  \/ (pixel_at (bitmap Samples.composite_A_ni) 0 2 = Some 0
      /\ ~ lands [Samples.glyph_A; Samples.glyph_ni] 2 0 2).
Proof.
  apply (composite_pixels Samples.net_ok Samples.api 8 [65%N; 20320%N] None init
           Samples.composite_A_ni
           (fetch_all Samples.net_ok Samples.api [65%N; 20320%N] 8 init).2
           [Samples.glyph_A; Samples.glyph_ni]).
  - vm_compute. reflexivity.
  - vm_compute. reflexivity.
  - repeat constructor.
  - cbn. lia.
  - cbn. lia.
Defined.

End BlitFacts.

(** ** More on the renderers *)

Module RenderFacts.
Import Json Client LoopProofs BlitProofs RenderProofs.

Section Generic.

Variables (W H w h : Z) (lit : Z -> Z -> option bool).

Hypothesis lit_total :
  forall y x, 0 <= y < h -> 0 <= x < w -> exists b, lit y x = Some b.

Lemma scroll_frame_generic offset trace :
  Oled.scroll_frame W H w h lit offset trace
  = Some (trace ++ Oled.Fill 0 :: Oled.scroll_pixels W H w h lit offset
                ++ [Oled.Show; Oled.Sleep]).
Proof.
  unfold Oled.scroll_frame, Oled.scroll_pixels.
  rewrite (for_each_append _ _
    (fun y =>
       flat_map
         (fun x =>
            match lit y x with
            | Some true =>
                if (0 <=? W - offset + x) && (W - offset + x <? W)
                then [Oled.Pixel (W - offset + x) ((H - h) / 2 + y) 1]
                else []
            | _ => []
            end)
         (Py.range w))).
  - cbn [mbind option_bind]. f_equal.
    rewrite <- !app_assoc. reflexivity.
  - intros y tr Hy. apply in_range in Hy.
    apply for_each_append. intros x tr' Hx. apply in_range in Hx.
    destruct (lit_total y x Hy Hx) as [b ->]. cbn [mbind option_bind].
    unfold Oled.y_offset.
    destruct b; [|now rewrite app_nil_r].
    destruct ((0 <=? W - offset + x) && (W - offset + x <? W));
      [reflexivity | now rewrite app_nil_r].
Qed.

Lemma static_frame_generic trace :
  Oled.static_frame W H w h lit trace
  = Some (trace ++ Oled.Fill 0 :: Oled.static_pixels W H w h lit ++ [Oled.Show]).
Proof.
  unfold Oled.static_frame, Oled.static_pixels.
  rewrite (for_each_append _ _
    (fun y =>
       flat_map
         (fun x =>
            match lit y x with
            | Some true => [Oled.Pixel ((W - w) / 2 + x) ((H - h) / 2 + y) 1]
            | _ => []
            end)
         (Py.range w))).
  - cbn [mbind option_bind]. f_equal.
    rewrite <- !app_assoc. reflexivity.
  - intros y tr Hy. apply in_range in Hy.
    apply for_each_append. intros x tr' Hx. apply in_range in Hx.
    destruct (lit_total y x Hy Hx) as [b ->]. cbn [mbind option_bind].
    unfold Oled.y_offset.
    destruct b; [reflexivity | now rewrite app_nil_r].
Qed.

End Generic.

Lemma in_scroll_pixels W H w h lit offset e :
  In e (Oled.scroll_pixels W H w h lit offset) <->
  exists x y,
    0 <= y < h /\ 0 <= x < w /\ lit y x = Some true
    /\ 0 <= W - offset + x < W
    /\ e = Oled.Pixel (W - offset + x) ((H - h) / 2 + y) 1.
Proof.
  unfold Oled.scroll_pixels. rewrite in_flat_map. split.
  - intros (y & Hy & Hin). apply in_range in Hy.
    apply in_flat_map in Hin as (x & Hx & Hin). apply in_range in Hx.
    destruct (lit y x) as [[]|] eqn:Hlit; try now destruct Hin.
    destruct (Z.leb_spec 0 (W - offset + x)), (Z.ltb_spec (W - offset + x) W);
      cbn in Hin; try now destruct Hin.
    destruct Hin as [<-|[]]. exists x, y. repeat split; auto; lia.
  - intros (x & y & Hy & Hx & Hlit & Hpx & ->).
    exists y. split; [now apply in_range|].
    apply in_flat_map. exists x. split; [now apply in_range|].
    rewrite Hlit.
    destruct (Z.leb_spec 0 (W - offset + x)), (Z.ltb_spec (W - offset + x) W);
      cbn; try lia. now left.
Qed.

Lemma in_static_pixels W H w h lit e :
  In e (Oled.static_pixels W H w h lit) <->
  exists x y,
    0 <= y < h /\ 0 <= x < w /\ lit y x = Some true
    /\ e = Oled.Pixel ((W - w) / 2 + x) ((H - h) / 2 + y) 1.
Proof.
  unfold Oled.static_pixels. rewrite in_flat_map. split.
  - intros (y & Hy & Hin). apply in_range in Hy.
    apply in_flat_map in Hin as (x & Hx & Hin). apply in_range in Hx.
    destruct (lit y x) as [[]|] eqn:Hlit; try now destruct Hin.
    destruct Hin as [<-|[]]. exists x, y. repeat split; auto; lia.
  - intros (x & y & Hy & Hx & Hlit & ->).
    exists y. split; [now apply in_range|].
    apply in_flat_map. exists x. split; [now apply in_range|].
    rewrite Hlit. now left.
Qed.

(** X9. In static mode, on a composite whose grid has its declared size,
    [_render_bitmap] clears once, draws every set pixel [(x, y)] at
    [((self_width - width) // 2 + x, (self_height - height) // 2 + y)],
    whether or not that is on the display, and shows once, without a
    pause. *)
Theorem static_frame_drawn W H B :
  grid_dims (bitmap B) (height B) (width B) ->
  _render_bitmap W H false B
  = Some (Oled.Fill 0
            :: Oled.static_pixels W H (width B) (height B) (pixel_lit B)
            ++ [Oled.Show])
  /\ forall e,
       In e (Oled.static_pixels W H (width B) (height B) (pixel_lit B)) <->
       exists x y,
         0 <= y < height B /\ 0 <= x < width B /\ pixel_lit B y x = Some true
         /\ e = Oled.Pixel ((W - width B) / 2 + x) ((H - height B) / 2 + y) 1.
Proof.
  intros Hdims. split.
  - unfold _render_bitmap. rewrite static_frame_generic; [reflexivity|].
    intros y x. now apply lit_total.
  - intros e. apply in_static_pixels.
Qed.

Lemma static_frame_drawn_witness :
  _render_bitmap 4 8 false Samples.composite_A_ni
  = Some [Oled.Fill 0; Oled.Pixel 2 3 1; Oled.Pixel 0 4 1; Oled.Pixel 1 4 1;
          Oled.Show].
Proof.
  apply (static_frame_drawn 4 8 Samples.composite_A_ni).
  split; [reflexivity | repeat constructor].
Defined.

(** *** Counting frames *)

Lemma sleeps_app t1 t2 : Oled.sleeps (t1 ++ t2) = (Oled.sleeps t1 + Oled.sleeps t2)%nat.
Proof. unfold Oled.sleeps. now rewrite List.filter_app, length_app. Qed.

Lemma shows_app t1 t2 : Oled.shows (t1 ++ t2) = (Oled.shows t1 + Oled.shows t2)%nat.
Proof. unfold Oled.shows. now rewrite List.filter_app, length_app. Qed.

Lemma pixels_only (l : list Oled.event) :
  (forall e, In e l -> exists x y c, e = Oled.Pixel x y c) ->
  Oled.sleeps l = 0%nat /\ Oled.shows l = 0%nat.
Proof.
  induction l as [|e l IH]; intros Hl; [split; reflexivity|].
  destruct (Hl e (or_introl eq_refl)) as (x & y & c & ->).
  destruct IH as [IH1 IH2]; [intros e' He'; apply Hl; now right|].
  unfold Oled.sleeps, Oled.shows in *. cbn. auto.
Qed.

Lemma frames_count (pixels : Z -> list Oled.event) (offsets : list Z) :
  (forall offset e, In e (pixels offset) -> exists x y c, e = Oled.Pixel x y c) ->
  let trace :=
    flat_map (fun offset => Oled.Fill 0 :: pixels offset ++ [Oled.Show; Oled.Sleep])
      offsets in
  Oled.sleeps trace = length offsets /\ Oled.shows trace = length offsets.
Proof.
  intros Hpix. cbn zeta.
  induction offsets as [|offset offsets [IH1 IH2]]; [split; reflexivity|].
  cbn [flat_map length].
  destruct (pixels_only (pixels offset) (Hpix offset)) as [H1 H2].
  change (Oled.Fill 0 :: pixels offset ++ [Oled.Show; Oled.Sleep])
    with ([Oled.Fill 0] ++ pixels offset ++ [Oled.Show; Oled.Sleep]).
  rewrite !sleeps_app, !shows_app, IH1, IH2, H1, H2. split; reflexivity.
Qed.

Lemma range_length n : length (Py.range n) = Z.to_nat n.
Proof.
  unfold Py.range, Py.range3. rewrite length_map, length_seq.
  f_equal. replace (n - 0 + 1 - 1) with n by lia. apply Z.div_1_r.
Qed.

(** X10. Scrolling a composite across a display of width [self_width]
    takes [(self_width + width + 3) // 2] frames in
    [demo1/oled_display_size.py]: the trace holds that many flushes and
    that many pauses. *)
Theorem scroll_frame_count W H B :
  grid_dims (bitmap B) (height B) (width B) ->
  exists trace,
    _render_bitmap W H true B = Some trace
    /\ Oled.sleeps trace = Z.to_nat ((W + width B + 3) / 2)
    /\ Oled.shows trace = Z.to_nat ((W + width B + 3) / 2).
Proof.
  intros Hdims. unfold _render_bitmap.
  rewrite (for_each_append _ _
             (fun offset => Oled.Fill 0 :: frame_pixels W H B offset
                              ++ [Oled.Show; Oled.Sleep]))
    by (intros offset trace _; now apply scroll_frame_spec).
  eexists. split; [reflexivity|]. cbn [app].
  assert (length (scroll_offsets W B) = Z.to_nat ((W + width B + 3) / 2)) as <-.
  { unfold scroll_offsets, Py.range3. rewrite length_map, length_seq.
    do 2 f_equal. lia. }
  apply frames_count. intros offset e He.
  apply in_frame_pixels in He as (x & y & _ & _ & _ & _ & ->). eauto.
Qed.

Lemma scroll_frame_count_witness :
  exists trace,
    _render_bitmap 4 8 true Samples.composite_A_ni = Some trace
    /\ Oled.sleeps trace = 5%nat /\ Oled.shows trace = 5%nat.
Proof.
  apply (scroll_frame_count 4 8 Samples.composite_A_ni).
  split; [reflexivity | repeat constructor].
Defined.

(** X11. In [demo1/oled_display_size.py] the scrolling loop starts at
    offset 0, where nothing is drawn, since the bitmap is still right of
    the display, and ends on an offset of at least [self_width + width],
    where nothing is drawn either. *)
Theorem scroll_starts_and_ends_blank W H B :
  0 <= W + width B ->
  (exists rest, scroll_offsets W B = 0 :: rest)
  /\ frame_pixels W H B 0 = []
  /\ exists earlier offset,
       scroll_offsets W B = earlier ++ [offset]
       /\ W + width B <= offset
       /\ frame_pixels W H B offset = [].
Proof.
  intros Htotal. split; [|split].
  - unfold scroll_offsets, Py.range3.
    assert (0 < (W + width B + 2 - 0 + 2 - 1) / 2) as Hn
      by (apply Z.div_str_pos; lia).
    destruct (Z.to_nat ((W + width B + 2 - 0 + 2 - 1) / 2)) as [|n] eqn:Hc; [lia|].
    cbn [seq map]. eauto.
  - destruct (frame_pixels W H B 0) as [|e l] eqn:Hf; [reflexivity|].
    assert (In e (frame_pixels W H B 0)) as Hin by (rewrite Hf; now left).
    apply in_frame_pixels in Hin as (x & y & _ & Hx & _ & Hpx & _). lia.
  - now apply scroll_reaches_end.
Qed.

Lemma scroll_starts_and_ends_blank_witness :
  frame_pixels 4 8 Samples.composite_A_ni 0 = [].
Proof.
  apply (scroll_starts_and_ends_blank 4 8 Samples.composite_A_ni). cbn. lia.
Defined.

(** *** The client without cache *)

Lemma scroll_pixels_ext W H w h lit1 lit2 offset :
  (forall y x, lit1 y x = lit2 y x) ->
  Oled.scroll_pixels W H w h lit1 offset = Oled.scroll_pixels W H w h lit2 offset.
Proof.
  intros Hext. unfold Oled.scroll_pixels.
  apply flat_map_ext. intros y. apply flat_map_ext. intros x.
  now rewrite Hext.
Qed.

(** X12. In [oled_display.py], scrolling a consistent reply draws one
    frame for each offset from 0 to [self_width + width - 1]: a clear,
    the pixels [(self_width - offset + x, y_offset + y)] of the set
    [(x, y)] whose column is on the display, a flush and a pause. *)
Theorem v1_scroll_frames_drawn W H d :
  consistent d = true ->
  ClientV1._render_bitmap W H true d
  = Some (flat_map
            (fun offset =>
               Oled.Fill 0
                 :: Oled.scroll_pixels W H (width_of d) (height_of d)
                      (glyph_lit d) offset
                 ++ [Oled.Show; Oled.Sleep])
            (Py.range (W + width_of d)))
  /\ forall offset e,
       In e (Oled.scroll_pixels W H (width_of d) (height_of d) (glyph_lit d) offset)
       <->
       exists x y,
         0 <= y < height_of d /\ 0 <= x < width_of d
         /\ glyph_lit d y x = Some true
         /\ 0 <= W - offset + x < W
         /\ e = Oled.Pixel (W - offset + x) ((H - height_of d) / 2 + y) 1.
Proof.
  intros Hcons. split; [|intros offset e; apply in_scroll_pixels].
  destruct (consistent_inv d Hcons) as (rows & Hbm & Hdims & _).
  apply has_dims_inv in Hdims as [Hwd Hht].
  unfold ClientV1._render_bitmap, ClientV1.scroll_offsets.
  rewrite Hbm, Hwd, Hht. cbn [mbind option_bind].
  assert (Hlit : forall y x, Json.lit (JArr rows) y x = glyph_lit d y x).
  { intros y x. unfold glyph_lit. now rewrite Hbm. }
  rewrite (for_each_append _ _
             (fun offset =>
                Oled.Fill 0
                  :: Oled.scroll_pixels W H (width_of d) (height_of d)
                       (Json.lit (JArr rows)) offset
                  ++ [Oled.Show; Oled.Sleep])).
  - cbn [app]. f_equal. apply flat_map_ext. intros offset.
    now rewrite (scroll_pixels_ext _ _ _ _ _ _ offset Hlit).
  - intros offset trace _. apply scroll_frame_generic.
    intros y x Hy Hx. rewrite Hlit.
    destruct (consistent_read d y x Hcons Hy Hx) as (bm & row & v & Hbm' & Hrow & Hv).
    unfold glyph_lit, Json.lit. rewrite Hbm'. cbn [mbind option_bind].
    rewrite Hrow. cbn [mbind option_bind]. rewrite Hv. cbn. eauto.
Qed.

Lemma v1_scroll_frames_drawn_witness :
  ClientV1._render_bitmap 2 3 true Samples.dot
  = Some [Oled.Fill 0; Oled.Show; Oled.Sleep;
          Oled.Fill 0; Oled.Pixel 1 1 1; Oled.Show; Oled.Sleep;
          Oled.Fill 0; Oled.Pixel 0 1 1; Oled.Show; Oled.Sleep].
Proof.
  apply (v1_scroll_frames_drawn 2 3 Samples.dot). reflexivity.
Defined.

End RenderFacts.

(** ** The display sequence *)

Module DisplayFacts.
Import Json Client LoopProofs CacheProofs BlitProofs ComposeProofs RenderProofs
       RenderFacts.

Section WithNetwork.

Variable net : list string -> string -> http_result.
Variable font_api_url : string.
Variable default_font_size : Z.

Abbreviation fetch := (_fetch_single_char_bitmap net font_api_url).
Abbreviation collect := (Client.collect net font_api_url).
Abbreviation compose := (_fetch_font_bitmap net font_api_url default_font_size).

(** X13. [_fetch_font_bitmap] of [oled_display.py] caches nothing: every
    call sends exactly one request, for the whole text, and returns the
    body exactly when the response has status 200 and an accepted body. *)
Theorem v1_fetch_uncached text requests :
  let url := String.append font_api_url (UrlEncode._urlencode_chinese text) in
  let r := ClientV1._fetch_font_bitmap net font_api_url text requests in
  r.2 = url :: requests
  /\ forall d,
       r.1 = Some d <->
       net requests url = Response 200 (Some d) /\ accepted d = true.
Proof.
  cbn zeta. unfold ClientV1._fetch_font_bitmap, accepted.
  destruct (net requests _) as [|status body] eqn:Hnet.
  { split; [reflexivity|]. intros d. split; [discriminate | intros [[=] _]]. }
  destruct (Z.eqb_spec status 200) as [->|Hne].
  - destruct body as [data|].
    + destruct (get_default data "success" (JBool false)) as [ok|] eqn:Hok.
      * destruct (truthy ok) eqn:Ht; (split; [reflexivity|]); intros d; cbn; split.
        -- intros [= <-]. now rewrite Hok.
        -- now intros [[= <-] _].
        -- discriminate.
        -- intros [[= <-] Hacc]. rewrite Hok in Hacc. congruence.
      * split; [reflexivity|]. intros d. cbn. split; [discriminate|].
        intros [[= <-] Hacc]. now rewrite Hok in Hacc.
    + split; [reflexivity|]. intros d. split; [discriminate | intros [[=] _]].
  - split; [reflexivity|]. intros d. split; [discriminate|].
    intros [[= -> _] _]. now contradiction Hne.
Qed.

Lemma fetch_miss_some char font_size s d s1 :
  chinese_font_cache s !! (char, font_size) = None ->
  fetch char font_size s = (Some d, s1) ->
  net (requests s) (request_url font_api_url char font_size)
  = Response 200 (Some d)
  /\ accepted d = true
  /\ chinese_font_cache s1 = <[(char, font_size) := d]> (chinese_font_cache s).
Proof.
  intros Hmiss. rewrite (fetch_miss _ _ _ _ _ Hmiss). cbn zeta.
  destruct (net _ _) as [|status [data|]] eqn:Hnet; try discriminate;
    destruct status as [|[]|]; try discriminate;
    repeat match goal with
           | |- context [match ?p with _ => _ end] => destruct p eqn:?
           end; try discriminate.
  intros [= <- <-]. cbn. auto.
Qed.

Lemma fetch_honest char font_size s r s1 :
  serves_well_formed net ->
  cache_well_formed s ->
  fetch char font_size s = (r, s1) ->
  cache_well_formed s1
  /\ forall d, r = Some d -> accepted d = true /\ well_formed d = true.
Proof.
  intros Hnet Hcache.
  destruct (chinese_font_cache s !! (char, font_size)) as [d0|] eqn:Hc.
  - rewrite (fetch_hit _ _ _ _ _ _ Hc). intros [= <- <-].
    split; [exact Hcache|]. intros d [= <-]. eapply Hcache, Hc.
  - destruct r as [d|]; intros Hf.
    + destruct (fetch_miss_some _ _ _ _ _ Hc Hf) as (Hreply & Hacc & Hs1).
      pose proof (Hnet _ _ _ Hreply Hacc) as Hwf.
      split; [|now intros d' [= <-]].
      intros key d'. rewrite Hs1, lookup_insert.
      case_decide; [now intros [= <-] | apply Hcache].
    + apply fetch_none_cache in Hf as (Heq & _). split; [|discriminate].
      intros key d. rewrite Heq. apply Hcache.
Qed.

Lemma cache_well_formed_ok s : cache_well_formed s -> cache_ok s.
Proof. intros H key d Hd. now apply H in Hd. Qed.

(** With such a service the first loop never raises. *)
Lemma collect_honest text fs all mh tw s res s1 :
  serves_well_formed net ->
  cache_well_formed s ->
  collect text fs all mh tw s = (res, s1) ->
  cache_well_formed s1
  /\ (res = GaveUp
      \/ exists ds,
           res = Collected (all ++ ds) (max_from mh (map height_of ds))
                   (tw + zsum (map width_of ds))
           /\ Forall (fun d => well_formed d = true) ds
           /\ length ds = length text).
Proof.
  intros Hnet. revert all mh tw s.
  induction text as [|c rest IH]; intros all mh tw s Hcache.
  - cbn. intros [= <- <-]. split; [exact Hcache|]. right. exists [].
    cbn. rewrite app_nil_r, Z.add_0_r. auto.
  - destruct (fetch c fs s) as [[d|] sa] eqn:Hf.
    + destruct (fetch_honest _ _ _ _ _ Hnet Hcache Hf) as [Hsa Hd].
      destruct (Hd d eq_refl) as [Hacc Hwf].
      assert (has_dims d = true) as Hdims.
      { apply well_formed_inv in Hwf as [Hcons _].
        now apply consistent_inv in Hcons as (_ & _ & Hdims & _). }
      rewrite (collect_step _ _ _ _ _ _ _ _ _ _ _ Hf Hacc Hdims). intros Hrun.
      destruct (IH _ _ _ _ Hsa Hrun) as [Hs1 [->|(ds & -> & Hds & Hlen)]].
      * auto.
      * split; [exact Hs1|]. right. exists (d :: ds).
        rewrite <- app_assoc. cbn [app map max_from fold_left zsum length].
        repeat split; [|now constructor | now rewrite Hlen].
        f_equal. lia.
    + cbn [Client.collect]. rewrite Hf. intros [= <- <-].
      apply fetch_none_cache in Hf as (Heq & _). split; [|now left].
      intros key d. rewrite Heq. apply Hcache.
Qed.

Lemma compose_honest text font_size s r s1 :
  serves_well_formed net ->
  cache_well_formed s ->
  compose text font_size s = (r, s1) ->
  cache_well_formed s1
  /\ (r = RNone
      \/ exists B, r = RBitmap B
                   /\ grid_dims (bitmap B) (height B) (width B)).
Proof.
  intros Hnet Hcache. unfold _fetch_font_bitmap.
  destruct (collect text _ [] 0 0 s) as [res s0] eqn:Hc.
  destruct (collect_honest _ _ _ _ _ _ _ _ Hnet Hcache Hc)
    as [Hs1 [->|(ds & -> & Hwf & _)]].
  - intros [= <- <-]. auto.
  - cbn [app]. rewrite Z.add_0_l.
    destruct ds as [|d ds]; [intros [= <- <-]; auto|].
    destruct (blit_well_formed put
                (fun g => grid_dims g (max_from 0 (map height_of (d :: ds)))
                                    (zsum (map width_of (d :: ds))))
                (d :: ds)
                (blank (max_from 0 (map height_of (d :: ds)))
                       (zsum (map width_of (d :: ds)))))
      as (full & -> & Hfull); auto.
    + intros g r0 c. apply put_dims.
    + apply blank_dims; [apply max_from_le|].
      apply zsum_nonneg, List.Forall_map, well_formed_widths, Hwf.
    + intros [= <- <-]. split; [exact Hs1|]. right. eexists.
      split; [reflexivity|]. exact Hfull.
Qed.

(** X14. With a service whose accepted replies are well-formed glyphs,
    [_fetch_font_bitmap] never raises: it returns [None], or a composite
    whose grid has the declared height and width; the cache keeps holding
    well-formed glyphs only. *)
Theorem compose_never_raises text font_size s :
  serves_well_formed net ->
  cache_well_formed s ->
  let r := compose text font_size s in
  cache_well_formed r.2
  /\ (r.1 = RNone
      \/ exists B, r.1 = RBitmap B
                   /\ grid_dims (bitmap B) (height B) (width B)).
Proof.
  intros Hnet Hcache. cbn zeta.
  destruct (compose text font_size s) as [r s1] eqn:Hrun.
  exact (compose_honest text font_size s r s1 Hnet Hcache Hrun).
Qed.

(** A composite of the declared size is rendered without an exception. *)
Lemma render_total W H scroll_mode B :
  grid_dims (bitmap B) (height B) (width B) ->
  exists drawn, _render_bitmap W H scroll_mode B = Some drawn.
Proof.
  intros Hdims. unfold _render_bitmap. destruct scroll_mode.
  - rewrite (for_each_append _ _
               (fun offset => Oled.Fill 0 :: frame_pixels W H B offset
                                ++ [Oled.Show; Oled.Sleep]))
      by (intros offset trace _; now apply scroll_frame_spec).
    eauto.
  - rewrite static_frame_generic; [eauto|].
    intros y x. now apply lit_total.
Qed.

Variables (self_width self_height : Z) (scroll_mode : bool).

Abbreviation display_loop :=
  (Display.display_loop net font_api_url default_font_size
     self_width self_height scroll_mode).

Lemma display_loop_honest texts delay font_size s trace :
  serves_well_formed net ->
  cache_well_formed s ->
  exists segments s1,
    display_loop texts delay font_size s trace
    = (Some (trace ++ concat segments), s1)
    /\ cache_well_formed s1
    /\ Forall2 (fun text seg => Display.segment_of text delay seg) texts segments.
Proof.
  intros Hnet. revert s trace.
  induction texts as [|text rest IH]; intros s trace Hcache;
    cbn [Display.display_loop].
  - exists [], s. cbn [concat]. rewrite app_nil_r. auto.
  - destruct (compose text font_size s) as [r sa] eqn:Hcomp.
    destruct (compose_honest text font_size s r sa Hnet Hcache Hcomp)
      as [Hsa [->|(B & -> & Hdims)]].
    + edestruct (IH sa) as (segs & s1 & Hrun & Hs1 & Hsegs); [exact Hsa|].
      rewrite Hrun. clear Hrun.
      set (notice := Display.show_message (Display.codes "Fetching Font...") text 1 0).
      set (failed := Display.show_message (Display.codes "Font Error!")
                       (Display.codes "Check API server") 1 2).
      exists ((notice ++ failed ++ [Display.Pause delay]) :: segs), s1.
      split; [|split; [exact Hs1|]].
      * cbn [concat]. f_equal. f_equal. now rewrite <- !app_assoc.
      * constructor; [|exact Hsegs]. exists failed. split; [reflexivity|]. now left.
    + destruct (render_total self_width self_height scroll_mode B Hdims)
        as [drawn ->].
      edestruct (IH sa) as (segs & s1 & Hrun & Hs1 & Hsegs); [exact Hsa|].
      rewrite Hrun. clear Hrun.
      set (notice := Display.show_message (Display.codes "Fetching Font...") text 1 0).
      exists ((notice ++ map Display.Driver drawn ++ [Display.Pause delay]) :: segs), s1.
      split; [|split; [exact Hs1|]].
      * cbn [concat]. f_equal. f_equal. now rewrite <- !app_assoc.
      * constructor; [|exact Hsegs]. exists (map Display.Driver drawn).
        split; [reflexivity|]. right. now exists drawn.
Qed.


End WithNetwork.

Lemma net_ok_serves_well_formed : serves_well_formed Samples.net_ok.
Proof.
  intros history url d. unfold Samples.net_ok.
  destruct (String.eqb url _); [now intros [= <-]|].
  destruct (String.eqb url _); [now intros [= <-]|].
  discriminate.
Qed.

Lemma cache_well_formed_init : cache_well_formed init.
Proof. intros key d. cbn. now rewrite lookup_empty. Qed.

Lemma compose_never_raises_witness :
  let r := _fetch_font_bitmap Samples.net_ok Samples.api 8
             [65%N; 20320%N] None init in
  cache_well_formed r.2
  /\ (r.1 = RNone
      \/ exists B, r.1 = RBitmap B
                   /\ grid_dims (bitmap B) (height B) (width B)).
Proof.
  apply (compose_never_raises Samples.net_ok Samples.api 8 [65%N; 20320%N] None init).
  - apply net_ok_serves_well_formed.
  - apply cache_well_formed_init.
Defined.


End DisplayFacts.

(** ** More on the font service *)

Module FontServerFacts.
Import Json Client FontServer RenderFacts.

Section WithPillow.

Variable textbbox : list N -> Z -> option (Z * Z * Z * Z).
Variable getpixel : list N -> Z -> Z -> Z -> bool.

(** A success carries a grid computed pixel by pixel over non-negative
    dimensions. *)
Lemma text_to_bitmap_ok text font_size bitmap width height :
  text_to_bitmap textbbox getpixel text font_size = Ok bitmap width height ->
  0 <= width /\ 0 <= height
  /\ bitmap = map (fun y =>
                     map (fun x => if getpixel text font_size x y then 1 else 0)
                         (Py.range width))
                  (Py.range height).
Proof.
  unfold text_to_bitmap.
  destruct (textbbox text font_size) as [[[[b0 b1] b2] b3]|]; [|discriminate].
  destruct (Py.strip text);
    match goal with
    | |- context [(?w <? 0) || (?h <? 0)] =>
        destruct (Z.ltb_spec w 0), (Z.ltb_spec h 0)
    end; cbn [orb]; try discriminate;
    intros [= <- <- <-]; auto.
Qed.

Lemma ok_reply_well_formed text font_size bitmap width height error :
  text_to_bitmap textbbox getpixel text font_size = Ok bitmap width height ->
  well_formed (jsonify error (Ok bitmap width height)) = true.
Proof.
  intros Hok. apply text_to_bitmap_ok in Hok as (Hw & Hh & ->).
  unfold well_formed, consistent, width_of, height_of, int_field. cbn.
  rewrite !length_map, range_length.
  apply andb_true_intro. split; [|apply Z.leb_le; lia].
  apply andb_true_intro. split; [apply Z.eqb_eq; lia|].
  apply forallb_forall. intros row Hrow.
  apply in_map_iff in Hrow as (cells & <- & Hcells).
  apply in_map_iff in Hcells as (y & <- & _).
  rewrite !length_map, range_length. apply Z.eqb_eq. lia.
Qed.

(** X16. Every success of [text_to_bitmap], once serialised, is a reply
    the client accepts and a well-formed glyph: [height] rows of [width]
    entries, each 0 or 1, with [width] and [height] not negative. *)
Theorem service_reply_well_formed text font_size bitmap width height error :
  text_to_bitmap textbbox getpixel text font_size = Ok bitmap width height ->
  let d := jsonify error (Ok bitmap width height) in
  accepted d = true
  /\ well_formed d = true
  /\ width_of d = width /\ height_of d = height
  /\ Forall (Forall (fun v => v = 0 \/ v = 1)) bitmap.
Proof.
  intros Hok. pose proof (ok_reply_well_formed _ _ _ _ _ error Hok) as Hwf.
  apply text_to_bitmap_ok in Hok as (Hw & Hh & ->).
  cbn zeta. split; [reflexivity|].
  split; [exact Hwf|]. split; [reflexivity|]. split; [reflexivity|].
  - apply List.Forall_forall. intros row Hrow.
    apply in_map_iff in Hrow as (y & <- & _).
    apply List.Forall_forall. intros v Hv.
    apply in_map_iff in Hv as (x & <- & _).
    destruct (getpixel text font_size x y); auto.
Qed.

(** X17. [get_font_bitmap] answers 400 exactly when the text is missing
    or empty, and otherwise 200 with the success of [text_to_bitmap] or
    500 with its failure; [text_to_bitmap] is only ever run on a
    non-empty text at a font size from 1 to 128, an argument outside that
    range or not an integer being replaced by 24. *)
Theorem get_font_bitmap_status text font_size r status :
  get_font_bitmap textbbox getpixel text font_size = (r, status) ->
  (status = 400 <-> text = None \/ text = Some [])
  /\ (status = 400 -> r = Error)
  /\ (status <> 400 ->
      exists t size,
        text = Some t /\ t <> []
        /\ 1 <= size <= 128
        /\ size = (match font_size with
                    | Int n => if (1 <=? n) && (n <=? 128) then n else 24
                    | _ => 24
                    end)
        /\ r = text_to_bitmap textbbox getpixel t size
        /\ (status = 200 /\ r <> Error \/ status = 500 /\ r = Error)).
Proof.
  unfold get_font_bitmap. intros Hrun.
  assert (Hsize : 1 <= parse_font_size font_size <= 128).
  { unfold parse_font_size. destruct font_size as [| |n]; try lia.
    destruct (Z.leb_spec 1 n), (Z.leb_spec n 128); cbn; lia. }
  assert (Hparse : parse_font_size font_size
                   = match font_size with
                     | Int n => if (1 <=? n) && (n <=? 128) then n else 24
                     | _ => 24
                     end)
    by (unfold parse_font_size; now destruct font_size).
  destruct text as [[|c t]|].
  - injection Hrun as <- <-.
    split; [split; auto|]. split; [auto|]. intros H. now contradiction H.
  - assert (Hserved :
        r = text_to_bitmap textbbox getpixel (c :: t) (parse_font_size font_size)
        /\ (status = 200 /\ r <> Error \/ status = 500 /\ r = Error)).
    { destruct (text_to_bitmap textbbox getpixel (c :: t)
                  (parse_font_size font_size)) as [b w h|];
        injection Hrun as <- <-; split; auto;
        try (left; split; [reflexivity | discriminate]). }
    destruct Hserved as [Hr Hstatus].
    assert (status <> 400) as Hne by (destruct Hstatus as [[-> _]|[-> _]]; lia).
    split; [split; [intros H; now contradiction Hne | intros [|]; discriminate]|].
    split; [intros H; now contradiction Hne|]. intros _.
    exists (c :: t), (parse_font_size font_size).
    split; [reflexivity|]. split; [discriminate|]. split; [exact Hsize|].
    split; [exact Hparse|]. split; [exact Hr | exact Hstatus].
  - injection Hrun as <- <-.
    split; [split; auto|]. split; [auto|]. intros H. now contradiction H.
Qed.

(** X18. A network that answers 200 only with serialised successes of
    this service serves well-formed glyphs: the replies of
    [font_server_size.py] are within what the compositor of
    [demo1/oled_display_size.py] blits without an exception. *)
Theorem service_serves_well_formed (net : list string -> string -> http_result) :
  (forall history url d,
      net history url = Response 200 (Some d) ->
      exists text font_size error r,
        get_font_bitmap textbbox getpixel text font_size = (r, 200)
        /\ d = jsonify error r) ->
  serves_well_formed net.
Proof.
  intros Hnet history url d Hreply _.
  destruct (Hnet history url d Hreply) as (text & a & error & r & Hrun & ->).
  unfold get_font_bitmap in Hrun.
  destruct text as [[|c t]|]; try discriminate.
  destruct (text_to_bitmap textbbox getpixel (c :: t) (parse_font_size a))
    as [b w h|] eqn:Hr; [|discriminate].
  injection Hrun as <-.
  exact (ok_reply_well_formed (c :: t) (parse_font_size a) b w h error Hr).
Qed.

End WithPillow.

Lemma service_serves_well_formed_witness :
  serves_well_formed Scenarios.space_service.
Proof.
  apply (service_serves_well_formed Samples.no_extent Samples.no_ink
           Scenarios.space_service).
  intros history url d [= <-].
  exists (Some [32%N; 32%N]), (Int 24), EmptyString.
  eexists. split; reflexivity.
Defined.

Lemma service_reply_well_formed_witness :
  let d := jsonify EmptyString (Ok [[0; 0]; [0; 0]; [0; 0]] 2 3) in
  accepted d = true
  /\ well_formed d = true
  /\ width_of d = 2 /\ height_of d = 3
  /\ Forall (Forall (fun v => v = 0 \/ v = 1)) [[0; 0]; [0; 0]; [0; 0]].
Proof.
  apply (service_reply_well_formed Samples.no_extent Samples.no_ink [32%N; 32%N] 3).
  reflexivity.
Defined.

Lemma get_font_bitmap_status_witness :
  let r := (get_font_bitmap Samples.no_extent Samples.no_ink
              (Some [32%N; 32%N]) (Int 300)).1 in
  exists t size,
    Some [32%N; 32%N] = Some t /\ t <> []
    /\ 1 <= size <= 128
    /\ size = 24
    /\ r = text_to_bitmap Samples.no_extent Samples.no_ink t size
    /\ (200 = 200 /\ r <> Error \/ 200 = 500 /\ r = Error).
Proof.
  intros r.
  apply (proj2 (proj2 (get_font_bitmap_status Samples.no_extent Samples.no_ink
                         (Some [32%N; 32%N]) (Int 300) r 200 eq_refl))).
  lia.
Defined.

End FontServerFacts.

(** ** Requests and repeated characters *)

Module RequestFacts.
Import Json Client CacheProofs CacheFacts DisplayFacts.

#[local] Set Warnings "-clear-no-such-hyp".

Section WithNetwork.

Variable net : list string -> string -> http_result.
Variable font_api_url : string.
Variable default_font_size : Z.

Abbreviation fetch := (_fetch_single_char_bitmap net font_api_url).
Abbreviation collect := (Client.collect net font_api_url).
Abbreviation compose := (_fetch_font_bitmap net font_api_url default_font_size).

(** After the lookup of its first character the first loop either stops,
    or goes on with the rest of the text after a successful lookup. *)
Lemma collect_cons c rest fs all mh tw s :
  let s1 := (fetch c fs s).2 in
  (collect (c :: rest) fs all mh tw s).2 = s1
  \/ (exists d all' mh' tw',
        (fetch c fs s).1 = Some d
        /\ collect (c :: rest) fs all mh tw s = collect rest fs all' mh' tw' s1).
Proof.
  cbn zeta. cbn [Client.collect].
  destruct (fetch c fs s) as [[d|] s1]; cbn [fst snd]; [|now left].
  repeat match goal with
         | |- context [match ?p with _ => _ end] => destruct p
         end; try (now left); right; eauto 6.
Qed.

Lemma collect_sends_new text fs all mh tw s :
  (length (requests (collect text fs all mh tw s).2)
   <= length (requests s)
      + size (keys_of text fs ∖ dom (chinese_font_cache s)))%nat.
Proof.
  revert all mh tw s. induction text as [|c rest IH]; intros all mh tw s.
  - cbn. lia.
  - assert (Hkeys : keys_of (c :: rest) fs = {[(c, fs)]} ∪ keys_of rest fs)
      by reflexivity.
    pose proof (fetch_requests net font_api_url c fs s) as Hreq.
    destruct (chinese_font_cache s !! (c, fs)) as [d0|] eqn:Hc.
    + (* cached: no request, and the same cache *)
      pose proof (fetch_hit net font_api_url c fs s d0 Hc) as Hf.
      destruct (collect_cons c rest fs all mh tw s) as [->|(d & a' & m' & t' & _ & ->)].
      * rewrite Hreq. lia.
      * rewrite Hf. cbn [snd]. etransitivity; [apply IH|].
        apply Nat.add_le_mono_l, subseteq_size. rewrite Hkeys. clear. set_solver.
    + (* not cached: one request *)
      assert ((c, fs) ∉ dom (chinese_font_cache s)) as Hnot
        by now apply not_elem_of_dom.
      assert (1 <= size (keys_of (c :: rest) fs ∖ dom (chinese_font_cache s)))%nat
        as Hone.
      { rewrite <- (size_singleton (C := gset (N * Z)) (c, fs)).
        apply subseteq_size. rewrite Hkeys. clear -Hnot. set_solver. }
      destruct (collect_cons c rest fs all mh tw s) as [->|(d & a' & m' & t' & Hd & ->)].
      * rewrite Hreq. cbn [length]. lia.
      * destruct (fetch c fs s) as [r s1] eqn:Hf. cbn [fst snd] in *. subst r.
        destruct (fetch_miss_some net font_api_url c fs s d s1 Hc Hf)
          as (_ & _ & Hcache).
        etransitivity; [apply IH|]. rewrite Hreq, Hcache, dom_insert_L.
        cbn [length].
        assert (keys_of (c :: rest) fs ∖ dom (chinese_font_cache s)
                = {[(c, fs)]}
                    ∪ keys_of rest fs ∖ ({[(c, fs)]} ∪ dom (chinese_font_cache s)))
          as Hsplit.
        { rewrite Hkeys. clear -Hnot. apply set_eq. intros key.
          destruct (decide (key = (c, fs))) as [->|Hne]; set_solver. }
        assert (({[(c, fs)]} : gset (N * Z))
                ## keys_of rest fs ∖ ({[(c, fs)]} ∪ dom (chinese_font_cache s)))
          as Hdisj by (clear; set_solver).
        rewrite Hsplit, (size_union _ _ Hdisj), size_singleton. lia.
Qed.

(** X6. A call of [_fetch_font_bitmap] sends at most one request for
    each distinct character of the text that is not cached yet: a
    character that occurs several times in a line is requested once, and
    a cached one not at all. *)
Theorem compose_sends_new text font_size s :
  (length (requests (compose text font_size s).2)
   <= length (requests s)
      + size (keys_of text (actual_font_size default_font_size font_size)
                ∖ dom (chinese_font_cache s)))%nat.
Proof.
  unfold _fetch_font_bitmap.
  pose proof (collect_sends_new text
                (actual_font_size default_font_size font_size) [] 0 0 s) as H.
  destruct (collect text _ [] 0 0 s) as [[| |ds mh tw] s1]; cbn [snd] in *;
    try exact H.
  destruct ds; [exact H|].
  destruct (blit_all put mh 0 _ _); exact H.
Qed.

End WithNetwork.

End RequestFacts.
